(** * Project Touchline: keyboard mapping and dispatch core

    A shallow embedding of [src/core/input_handler.py] and
    [src/core/keyboard_mapper.py], and the properties of the key-combo
    parser, the dispatch table, the list cursor and the preset table.

    Conventions of the embedding.
    - A Python [str] is a [string]; a character stands for a code point
      below 256 (the key identifiers of the repository are plain ASCII).
    - A Python [int] is a [Z].
    - A Python [dict] with string keys is a [gmap string _].  Where a dict
      object is shared by reference and mutated in place (the preset tables
      of [KeyboardMapper]) the objects live in an explicit heap.
    - Text written with [print] is appended to an output log. *)

From Stdlib Require Import ZArith String Ascii List.
From stdpp Require Import gmap strings list fin_maps.
From stdpp Require Import pretty.

Local Open Scope string_scope.

(** ** Python values shared by the modules *)

(** What a raised Python exception object looks like to a handler:
    whether [except Exception] catches it (a [KeyboardInterrupt] or a
    [SystemExit] derives from [BaseException] only), and its [str(e)]. *)
Record exn := Exn { is_Exception : bool; exn_str : string }.

(** Result of a call that may raise. *)
Inductive result (A : Type) :=
| Ok (a : A)
| Raise (e : exn).
Arguments Ok {A} a.
Arguments Raise {A} e.

(** The exception of an out-of-range subscript. *)
Definition IndexError : exn := Exn true "list index out of range".

(** What [open(filepath)] followed by [json.load] gives: the file is
    absent ([FileNotFoundError]), its text is not JSON
    ([json.JSONDecodeError], with the text of the error), or the parsed
    document. *)
Inductive loaded (A : Type) :=
| FileNotFound
| JSONDecodeError (msg : string)
| Parsed (doc : A).
Arguments FileNotFound {A}.
Arguments JSONDecodeError {A} msg.
Arguments Parsed {A} doc.

(** ** Strings: [str.lower] and [str.split] *)
Module Str.

(** [str.lower] on one code point below 256: the letters A-Z and the
    Latin-1 capitals U+00C0-U+00DE (without the sign U+00D7) move up
    by 32, every other code point is left as it is. *)
Definition lower_char (c : ascii) : ascii :=
  let n := nat_of_ascii c in
  if (((65 <=? n) && (n <=? 90)) || ((192 <=? n) && (n <=? 214))
      || ((216 <=? n) && (n <=? 222)))%nat
  then ascii_of_nat (n + 32) else c.

Fixpoint lower (s : string) : string :=
  match s with
  | EmptyString => EmptyString
  | String c r => String (lower_char c) (lower r)
  end.

(** [s.split(sep)] for a one-character separator: the pieces between the
    separators, in order; empty pieces are kept and the list is never
    empty ([''.split('+') == ['']]).  The accumulator-free recursion puts
    the head character in front of the first piece of the rest. *)
Fixpoint split (sep : ascii) (s : string) : list string :=
  match s with
  | EmptyString => [EmptyString]
  | String c r =>
      if Ascii.eqb c sep then EmptyString :: split sep r
      else match split sep r with
           | t :: ts => String c t :: ts
           | [] => [String c EmptyString]
           end
  end.

(** [sep.join(parts)]. *)
Fixpoint join (sep : ascii) (parts : list string) : string :=
  match parts with
  | [] => EmptyString
  | [t] => t
  | t :: ts => t ++ String sep (join sep ts)
  end.

(** [sep not in s]. *)
Fixpoint free_of (sep : ascii) (s : string) : bool :=
  match s with
  | EmptyString => true
  | String c r => negb (Ascii.eqb c sep) && free_of sep r
  end.

End Str.

(** ** The list cursor: [class NavigationHelper] *)
Module NavigationHelper.

Local Open Scope Z_scope.

(** The two attributes of the object.  The methods never update the list
    in place: they only read it or replace the reference. *)
Record t := Make { items : list string; current_index : Z }.

(** [len(self.items)] *)
Definition len (nh : t) : Z := Z.of_nat (length (items nh)).

(** Truth value of a list: non-empty. *)
Definition truthy (l : list string) : bool :=
  match l with [] => false | _ => true end.

(** [__init__] *)
Definition init (its : list string) : t :=
  {| items := its; current_index := 0 |}.

(** [get_current]: the subscript is evaluated only under the bounds
    test, where it is in range. *)
Definition get_current (nh : t) : string :=
  if truthy (items nh) && (0 <=? current_index nh)
     && (current_index nh <? len nh)
  then nth (Z.to_nat (current_index nh)) (items nh) ""
  else "".

(** [get_current_index] *)
Definition get_current_index (nh : t) : Z := current_index nh.

(** [next]: Python's [%] with a positive right operand is [Z.modulo]. *)
Definition next (nh : t) : string * t :=
  if truthy (items nh) then
    let nh' := {| items := items nh;
                  current_index := (current_index nh + 1) mod len nh |} in
    (get_current nh', nh')
  else ("", nh).

(** [previous] *)
Definition previous (nh : t) : string * t :=
  if truthy (items nh) then
    let nh' := {| items := items nh;
                  current_index := (current_index nh - 1) mod len nh |} in
    (get_current nh', nh')
  else ("", nh).

(** [first] *)
Definition first (nh : t) : string * t :=
  let nh' := {| items := items nh; current_index := 0 |} in
  (get_current nh', nh').

(** [last] *)
Definition last (nh : t) : string * t :=
  if truthy (items nh) then
    let nh' := {| items := items nh; current_index := len nh - 1 |} in
    (get_current nh', nh')
  else ("", nh).

(** [set_index] *)
Definition set_index (index : Z) (nh : t) : string * t :=
  if truthy (items nh) && (0 <=? index) && (index <? len nh) then
    let nh' := {| items := items nh; current_index := index |} in
    (get_current nh', nh')
  else ("", nh).

(** [update_items] *)
Definition update_items (its : list string) (nh : t) : t :=
  {| items := its; current_index := 0 |}.

(** The methods as commands, to speak about every sequence of calls. *)
Inductive op :=
| Next | Previous | First | Last | GetCurrent
| SetIndex (i : Z) | UpdateItems (its : list string).

(** What a call returns (the item, when the method returns one) and the
    object afterwards. *)
Definition exec (o : op) (nh : t) : option string * t :=
  match o with
  | Next => let '(r, nh') := next nh in (Some r, nh')
  | Previous => let '(r, nh') := previous nh in (Some r, nh')
  | First => let '(r, nh') := first nh in (Some r, nh')
  | Last => let '(r, nh') := last nh in (Some r, nh')
  | GetCurrent => (Some (get_current nh), nh)
  | SetIndex i => let '(r, nh') := set_index i nh in (Some r, nh')
  | UpdateItems its => (None, update_items its nh)
  end.

(** The object after a sequence of calls, oldest first. *)
Definition run (os : list op) (nh : t) : t :=
  foldl (fun s o => snd (exec o s)) nh os.

(** [n] calls of [next], of [previous]. *)
Definition nexts (n : nat) (nh : t) : t :=
  Nat.iter n (fun s => snd (next s)) nh.
Definition previouses (n : nat) (nh : t) : t :=
  Nat.iter n (fun s => snd (previous s)) nh.

(** The cursor invariant of the data model. *)
Definition inv (nh : t) : Prop :=
  match items nh with
  | [] => current_index nh = 0
  | _ :: _ => 0 <= current_index nh < len nh
  end.

End NavigationHelper.

(** ** The dispatch table: [class InputHandler] *)
Module InputHandler.

(** [parse_key_combo]: a method that reads nothing of the object.  A
    subscript of an empty list would raise; [split] never gives one. *)
Definition parse_key_combo (key_string : string)
  : result (list string * string) :=
  let parts := Str.split "+" (Str.lower key_string) in
  if (length parts =? 1)%nat then
    match parts with
    | p0 :: _ => Ok ([], p0)
    | [] => Raise IndexError
    end
  else
    let modifiers := removelast parts in
    match list.last parts with
    | Some key => Ok (modifiers, key)
    | None => Raise IndexError
    end.

Section Dispatch.

(** A callback is a Python callable held by reference: [Callback] is the
    type of these objects, [World] is everything else of the program that
    a callback can read or write (what is printed while a callback runs
    included). *)
Context {Callback World : Type}.

(** The attributes of the object. *)
Record t := Make {
  hotkeys : gmap string Callback;
  key_bindings : gmap string string;
  hotkeys_file : option string;
  navigation_mode : string
}.

(** What the program did that can be seen from outside the handler: a
    line printed by the handler, a callback called by the handler. *)
Inductive event :=
| Printed (line : string)
| Called (cb : Callback).

(** The handler, the rest of the program, and the events so far. *)
Record sys := Sys { handler : t; env : World; trace : list event }.

(** Calling a callback: it runs on the handler (a callback of a screen
    may bind, unbind or clear) and on the rest of the program, and
    returns ([None]) or raises ([Some e]). *)
Variable call : Callback -> t * World -> option exn * (t * World).

Definition set_hotkeys (hk : gmap string Callback) (h : t) : t :=
  {| hotkeys := hk; key_bindings := key_bindings h;
     hotkeys_file := hotkeys_file h; navigation_mode := navigation_mode h |}.

Definition with_handler (h : t) (s : sys) : sys :=
  {| handler := h; env := env s; trace := trace s |}.

Definition print (line : string) (s : sys) : sys :=
  {| handler := handler s; env := env s; trace := trace s ++ [Printed line] |}.

(** [load_hotkeys] *)
Definition load_hotkeys (filepath : string)
    (src : loaded (gmap string string)) (s : sys) : sys :=
  match src with
  | Parsed doc =>
      print ("[InputHandler] Loaded hotkeys from " ++ filepath)
        (with_handler
           {| hotkeys := hotkeys (handler s); key_bindings := doc;
              hotkeys_file := hotkeys_file (handler s);
              navigation_mode := navigation_mode (handler s) |} s)
  | FileNotFound =>
      print ("[InputHandler] Hotkeys file not found: " ++ filepath) s
  | JSONDecodeError e =>
      print ("[InputHandler] Error parsing hotkeys file: " ++ e) s
  end.

(** [__init__]: [file] is the path with what reading it gives; an empty
    path counts as no path. *)
Definition init (file : option (string * loaded (gmap string string)))
    (w : World) : sys :=
  let s := {| handler := {| hotkeys := ∅; key_bindings := ∅;
                            hotkeys_file := fst <$> file;
                            navigation_mode := "menu" |};
              env := w; trace := [] |} in
  match file with
  | Some (path, src) => if String.eqb path "" then s else load_hotkeys path src s
  | None => s
  end.

(** [bind] *)
Definition bind (key action : string) (callback : Callback) (s : sys) : sys :=
  print ("[InputHandler] Bound '" ++ key ++ "' to action: " ++ action)
    (with_handler
       (set_hotkeys (<[Str.lower key := callback]> (hotkeys (handler s)))
          (handler s)) s).

(** [unbind] *)
Definition unbind (key : string) (s : sys) : sys :=
  match hotkeys (handler s) !! Str.lower key with
  | Some _ =>
      print ("[InputHandler] Unbound key: " ++ key)
        (with_handler
           (set_hotkeys (delete (Str.lower key) (hotkeys (handler s)))
              (handler s)) s)
  | None => s
  end.

(** [handle_key].  The callback found under the lower-cased key is
    called once, inside [try].  [except Exception] catches what derives
    from [Exception], prints and returns [False]; anything else that is
    raised leaves [handle_key] as it is. *)
Definition handle_key (key : string) (s : sys) : result bool * sys :=
  let key := Str.lower key in
  match hotkeys (handler s) !! key with
  | Some cb =>
      let '(r, (h', w')) := call cb (handler s, env s) in
      let s' := {| handler := h'; env := w';
                   trace := trace s ++ [Called cb] |} in
      match r with
      | None => (Ok true, s')
      | Some e =>
          if is_Exception e then
            (Ok false,
             print ("[InputHandler] Error handling key '" ++ key ++ "': "
                    ++ exn_str e) s')
          else (Raise e, s')
      end
  | None => (Ok false, s)
  end.

(** [set_navigation_mode] *)
Definition set_navigation_mode (mode : string) (s : sys) : sys :=
  let valid_modes := ["menu"; "list"; "form"; "match"] in
  if bool_decide (mode ∈ valid_modes) then
    print ("[InputHandler] Navigation mode set to: " ++ mode)
      (with_handler
         {| hotkeys := hotkeys (handler s);
            key_bindings := key_bindings (handler s);
            hotkeys_file := hotkeys_file (handler s);
            navigation_mode := mode |} s)
  else print ("[InputHandler] Invalid navigation mode: " ++ mode) s.

(** [get_navigation_mode] *)
Definition get_navigation_mode (s : sys) : string :=
  navigation_mode (handler s).

(** [clear_bindings] *)
Definition clear_bindings (s : sys) : sys :=
  print "[InputHandler] Cleared all key bindings"
    (with_handler (set_hotkeys ∅ (handler s)) s).

(** The callbacks that [handle_key] called, read off a trace. *)
Fixpoint calls (tr : list event) : list Callback :=
  match tr with
  | [] => []
  | Called cb :: r => cb :: calls r
  | Printed _ :: r => calls r
  end.

(** The calls that update the handler from outside a callback, and a
    run of them, oldest first. *)
Inductive command :=
| Bind (key action : string) (callback : Callback)
| Unbind (key : string)
| SetNavigationMode (mode : string)
| ClearBindings.

Definition exec (c : command) (s : sys) : sys :=
  match c with
  | Bind key action callback => bind key action callback s
  | Unbind key => unbind key s
  | SetNavigationMode mode => set_navigation_mode mode s
  | ClearBindings => clear_bindings s
  end.

Definition run (cs : list command) (s : sys) : sys := foldl (fun s c => exec c s) s cs.

(** The command does not bind, unbind or clear the (lower-cased) key. *)
Definition keeps (k : string) (c : command) : Prop :=
  match c with
  | Bind key _ _ | Unbind key => Str.lower key <> k
  | SetNavigationMode _ => True
  | ClearBindings => False
  end.

End Dispatch.

Arguments t : clear implicits.
Arguments event : clear implicits.
Arguments sys : clear implicits.
Arguments command : clear implicits.

End InputHandler.

(** ** The preset table: [class KeyboardMapper] *)
Module KeyboardMapper.

(** A preset's table is a dict object; [self.mappings] holds references
    to these objects, and [map_key], [unmap_key] and [load_config] update
    them in place.  So the objects live in a heap, addressed by
    locations, and the mapper holds locations. *)
Abbreviation loc := positive.
Abbreviation dict := (gmap string string).

Record state := State {
  mappings : gmap string loc;       (* self.mappings *)
  config_file : option string;      (* self.config_file *)
  current_preset : string;          (* self.current_preset *)
  heap : gmap loc dict;             (* the dict objects *)
  stdout : list string              (* the lines printed *)
}.

Definition print (line : string) (s : state) : state :=
  {| mappings := mappings s; config_file := config_file s;
     current_preset := current_preset s; heap := heap s;
     stdout := stdout s ++ [line] |}.

(** The dict object at a location. *)
Definition deref (s : state) (l : loc) : dict := default ∅ (heap s !! l).

(** A new dict object with the given contents: a location not in use. *)
Definition new_dict (d : dict) (s : state) : loc * state :=
  let l := fresh (dom (heap s)) in
  (l, {| mappings := mappings s; config_file := config_file s;
         current_preset := current_preset s; heap := <[l := d]> (heap s);
         stdout := stdout s |}).

(** Update of the object at [l] in place. *)
Definition set_dict (l : loc) (d : dict) (s : state) : state :=
  {| mappings := mappings s; config_file := config_file s;
     current_preset := current_preset s; heap := <[l := d]> (heap s);
     stdout := stdout s |}.

(** [self.mappings[name] = <object at l>] *)
Definition store_preset (name : string) (l : loc) (s : state) : state :=
  {| mappings := <[name := l]> (mappings s); config_file := config_file s;
     current_preset := current_preset s; heap := heap s;
     stdout := stdout s |}.

(** [self.mappings[name] = {...}] with a dict display. *)
Definition assign_new (name : string) (d : dict) (s : state) : state :=
  let '(l, s') := new_dict d s in store_preset name l s'.

Definition default_table : dict :=
  list_to_map
    [("up", "navigate_up"); ("down", "navigate_down");
     ("left", "navigate_left"); ("right", "navigate_right");
     ("enter", "select"); ("escape", "back"); ("tab", "next_section");
     ("shift+tab", "previous_section"); ("space", "toggle");
     ("r", "read_current"); ("s", "save"); ("l", "load"); ("h", "help");
     ("q", "quit"); ("m", "main_menu"); ("n", "toggle_narration");
     ("f1", "help"); ("ctrl+s", "save"); ("ctrl+l", "load")].

Definition screen_reader_table : dict :=
  list_to_map
    [("up", "navigate_up"); ("down", "navigate_down");
     ("left", "navigate_left"); ("right", "navigate_right");
     ("enter", "select"); ("escape", "back");
     ("insert+r", "read_current"); ("insert+s", "stop_speech");
     ("insert+h", "read_heading"); ("insert+t", "read_title");
     ("ctrl+home", "first_item"); ("ctrl+end", "last_item")].

Definition match_table : dict :=
  list_to_map
    [("space", "pause_match"); ("c", "read_commentary");
     ("p", "read_possession"); ("t", "read_stats"); ("g", "read_last_goal");
     ("e", "read_last_event"); ("f", "faster_commentary");
     ("slower", "slower_commentary"); ("left", "previous_event");
     ("right", "next_event"); ("escape", "back_to_menu")].

Definition tactics_table : dict :=
  list_to_map
    [("up", "previous_player"); ("down", "next_player");
     ("left", "previous_position"); ("right", "next_position");
     ("enter", "select_player"); ("f", "change_formation");
     ("r", "read_formation"); ("s", "substitute_menu");
     ("i", "player_instructions"); ("escape", "back")].

Definition inbox_table : dict :=
  list_to_map
    [("up", "previous_email"); ("down", "next_email");
     ("enter", "open_email"); ("r", "read_email"); ("d", "delete_email");
     ("a", "archive_email"); ("escape", "back")].

(** [_init_default_mappings] *)
Definition _init_default_mappings (s : state) : state :=
  assign_new "inbox" inbox_table
    (assign_new "tactics" tactics_table
       (assign_new "match" match_table
          (assign_new "screen_reader" screen_reader_table
             (assign_new "default" default_table s)))).

(** One turn of the loop of [load_config]: [update] in place when the
    preset is there (the loaded value wins on a key of both, the other
    keys stay), else the loaded dict object becomes the preset's table.
    The objects that [json.load] built are referenced from nowhere else,
    so the object is given its location when it is stored. *)
Definition merge_preset (s : state) (pm : string * dict) : state :=
  let '(preset, m) := pm in
  match mappings s !! preset with
  | Some l => set_dict l (m ∪ deref s l) s
  | None => assign_new preset m s
  end.

(** [load_config]: [src] is what reading [filepath] gives.  The document
    is an object of objects of strings; its members are visited in the
    order of [items()]. *)
Definition load_config (filepath : string)
    (src : loaded (gmap string dict)) (s : state) : state :=
  match src with
  | Parsed loaded_mappings =>
      print ("[KeyboardMapper] Loaded configuration from " ++ filepath)
        (foldl merge_preset s (map_to_list loaded_mappings))
  | FileNotFound =>
      print ("[KeyboardMapper] Config file not found: " ++ filepath) s
  | JSONDecodeError e =>
      print ("[KeyboardMapper] Error parsing config file: " ++ e) s
  end.

(** [__init__] in a program that has no dict object and no output yet:
    [file] is the path with what reading it gives; an empty path counts
    as no path. *)
Definition init (file : option (string * loaded (gmap string dict))) : state :=
  let s := _init_default_mappings
             {| mappings := ∅; config_file := fst <$> file;
                current_preset := "default"; heap := ∅; stdout := [] |} in
  match file with
  | Some (path, src) => if String.eqb path "" then s else load_config path src s
  | None => s
  end.

(** [preset or self.current_preset]: [None] and the empty string are
    false. *)
Definition or_current (preset : option string) (s : state) : string :=
  match preset with
  | Some p => if String.eqb p "" then current_preset s else p
  | None => current_preset s
  end.

(** [set_preset] *)
Definition set_preset (preset_name : string) (s : state) : bool * state :=
  match mappings s !! preset_name with
  | Some _ =>
      (true,
       print ("[KeyboardMapper] Activated preset: " ++ preset_name)
         {| mappings := mappings s; config_file := config_file s;
            current_preset := preset_name; heap := heap s;
            stdout := stdout s |})
  | None =>
      (false, print ("[KeyboardMapper] Preset not found: " ++ preset_name) s)
  end.

(** [get_action] *)
Definition get_action (key : string) (preset : option string) (s : state)
  : option string :=
  let preset := or_current preset s in
  match mappings s !! preset with
  | Some l => deref s l !! Str.lower key
  | None => None
  end.

(** [map_key] *)
Definition map_key (key action : string) (preset : option string)
    (s : state) : state :=
  let preset := or_current preset s in
  let '(l, s1) := match mappings s !! preset with
                   | Some l => (l, s)
                   | None => let '(l, s') := new_dict ∅ s in
                             (l, store_preset preset l s')
                   end in
  print ("[KeyboardMapper] Mapped '" ++ key ++ "' to '" ++ action
         ++ "' in preset '" ++ preset ++ "'")
    (set_dict l (<[Str.lower key := action]> (deref s1 l)) s1).

(** [unmap_key] *)
Definition unmap_key (key : string) (preset : option string) (s : state)
  : state :=
  let preset := or_current preset s in
  match mappings s !! preset with
  | Some l =>
      match deref s l !! Str.lower key with
      | Some _ =>
          print ("[KeyboardMapper] Unmapped '" ++ key ++ "' from preset '"
                 ++ preset ++ "'")
            (set_dict l (delete (Str.lower key) (deref s l)) s)
      | None => s
      end
  | None => s
  end.

(** [get_mappings]: the result is a copy, so a value. *)
Definition get_mappings (preset : option string) (s : state) : dict :=
  let preset := or_current preset s in
  match mappings s !! preset with
  | Some l => deref s l
  | None => ∅
  end.

(** [create_preset]: [.copy()] builds a new dict object with the same
    keys and values; the values are strings, which cannot be updated. *)
Definition create_preset (name : string) (base_preset : option string)
    (s : state) : state :=
  let base := match base_preset with
              | Some b => if String.eqb b "" then None
                          else (fun l => (b, l)) <$> mappings s !! b
              | None => None
              end in
  match base with
  | Some (b, l) =>
      print ("[KeyboardMapper] Created preset '" ++ name ++ "' based on '"
             ++ b ++ "'")
        (assign_new name (deref s l) s)
  | None =>
      print ("[KeyboardMapper] Created empty preset '" ++ name ++ "'")
        (assign_new name ∅ s)
  end.

(** The table of a preset, read through the reference, if there is such
    a preset. *)
Definition table (s : state) (preset : string) : option dict :=
  deref s <$> mappings s !! preset.

(** The calls that update a mapper, and the states they lead to from a
    new mapper. *)
Inductive command :=
| LoadConfig (filepath : string) (src : loaded (gmap string dict))
| SetPreset (preset_name : string)
| MapKey (key action : string) (preset : option string)
| UnmapKey (key : string) (preset : option string)
| CreatePreset (name : string) (base_preset : option string).

Definition exec (c : command) (s : state) : state :=
  match c with
  | LoadConfig f src => load_config f src s
  | SetPreset p => snd (set_preset p s)
  | MapKey k a p => map_key k a p s
  | UnmapKey k p => unmap_key k p s
  | CreatePreset n b => create_preset n b s
  end.

Inductive reachable : state -> Prop :=
| reach_init file : reachable (init file)
| reach_exec c s : reachable s -> reachable (exec c s).

(** No reference of the mapper dangles, and no dict object is the table
    of two presets. *)
Definition wf (s : state) : Prop :=
  (forall p l, mappings s !! p = Some l -> is_Some (heap s !! l)) /\
  (forall p q l, mappings s !! p = Some l -> mappings s !! q = Some l -> p = q).

(** A change of one preset's table through the interface. *)
Inductive edit :=
| EMap (key action : string)
| EUnmap (key : string).

Definition apply_edit (preset : string) (s : state) (e : edit) : state :=
  match e with
  | EMap k a => map_key k a (Some preset) s
  | EUnmap k => unmap_key k (Some preset) s
  end.

End KeyboardMapper.

(** ** A small program around the handler, for concrete runs *)
Module Scenario.

(** Three callbacks: one counts its calls in the world and returns, one
    raises a [ValueError], one raises a [KeyboardInterrupt]. *)
Inductive callback := Count | Boom | Interrupt.

Definition call (cb : callback)
    (st : InputHandler.t callback * nat)
  : option exn * (InputHandler.t callback * nat) :=
  match cb with
  | Count => (None, (st.1, S st.2))
  | Boom => (Some (Exn true "bad value"), st)
  | Interrupt => (Some (Exn false "KeyboardInterrupt"), st)
  end.

(** A new handler, no hotkeys file, the counter at 0. *)
Definition start : InputHandler.sys callback nat := InputHandler.init None 0.

End Scenario.

(** ** Saving the preset table: [KeyboardMapper.save_config] *)
Module KeyboardMapperSave.
Import KeyboardMapper.

(** What [json.dump(self.mappings, f)] writes: the object of all the
    presets, each with its table as it is at that time. *)
Definition document (s : state) : gmap string dict := deref s <$> mappings s.

(** [save_config].  [io] is what [open(filepath, 'w')] and [json.dump]
    do: both succeed ([None]) and the file then holds the document, or
    one of them raises.  What derives from [Exception] is caught and
    reported; anything else leaves [save_config] as it is.  The result
    is the document in the file when it was written in full. *)
Definition save_config (filepath : string) (io : option exn) (s : state)
  : result (option (gmap string dict)) * state :=
  match io with
  | None =>
      (Ok (Some (document s)),
       print ("[KeyboardMapper] Saved configuration to " ++ filepath) s)
  | Some e =>
      if is_Exception e then
        (Ok None, print ("[KeyboardMapper] Error saving config: " ++ exn_str e) s)
      else (Raise e, s)
  end.

End KeyboardMapperSave.

(** ** A caller of the cursor and of the handler: [class InboxScreen] *)
Module InboxScreen.

(** [xs[i]] on a Python list: a negative index counts from the end, an
    index out of range raises [IndexError].  The result is the position
    of the element with the element. *)
Definition subscript {A : Type} (xs : list A) (i : Z) : result (nat * A) :=
  let j := if (i <? 0)%Z then (i + Z.of_nat (length xs))%Z else i in
  if (0 <=? j)%Z then
    match xs !! Z.to_nat j with
    | Some x => Ok (Z.to_nat j, x)
    | None => Raise IndexError
    end
  else Raise IndexError.

(** The exception of a method call on [None]. *)
Definition AttributeError : exn :=
  Exn true "'NoneType' object has no attribute 'set_index'".

(** [class Email] *)
Record Email := MkEmail {
  sender : string; subject : string; content : string; date : string;
  read : bool
}.

(** [Email.get_summary] *)
Definition get_summary (e : Email) : string :=
  (if read e then "read" else "unread") ++ ", From " ++ sender e ++ ", "
  ++ subject e ++ ", " ++ date e.

(** [Email.mark_read] *)
Definition mark_read (e : Email) : Email :=
  {| sender := sender e; subject := subject e; content := content e;
     date := date e; read := true |}.

(** The attributes of the screen, without the two collaborators.  The
    [Email] objects are made once, in [_load_sample_emails], and the list
    that holds them is never changed afterwards, so an object is known
    by its position in [emails]: [current_email] is that position, and
    [mark_read] on the object is an update of the list at the
    position. *)
Record t := Make {
  emails : list Email;
  navigator : option NavigationHelper.t;
  active : bool;
  current_email : option nat
}.

(** What the methods of the screen work on, the input handler apart:
    the screen, the texts given to the narrator, and the lines
    printed. *)
Record world := World {
  screen : t;
  spoken : list string;
  stdout : list string
}.

(** Modelled from the spec: [speak(text, interrupt)] of the narration
    collaborator ([core/narration_engine.py] is not among the sources of
    [src/core]); the call is recorded with its text and returns. *)
Definition speak (text : string) (w : world) : world :=
  {| screen := screen w; spoken := spoken w ++ [text]; stdout := stdout w |}.

Definition with_screen (scr : t) (w : world) : world :=
  {| screen := scr; spoken := spoken w; stdout := stdout w |}.

(** [_load_sample_emails]; the pound sign is the code point 163. *)
Definition sample_emails : list Email :=
  [ MkEmail "Board of Directors" "Welcome to the Club"
      ("Welcome to your new role as manager. We have high expectations for this season. "
       ++ "Please review the squad and make any necessary signings. Good luck!")
      "1 Jan 2026" false;
    MkEmail "Assistant Manager" "Squad Training Report"
      ("The team is looking sharp in training. Fitness levels are good overall, "
       ++ "but we need to work on set pieces. Player morale is high.")
      "3 Jan 2026" false;
    MkEmail "Chief Scout" "New Talent Identified"
      ("We've identified a promising young striker from the academy. "
       ++ "Age 18, good potential. Recommend adding to first team squad for development.")
      "5 Jan 2026" false;
    MkEmail "Director of Football" "Transfer Budget Update"
      ("Your transfer budget for this window is " ++ String "163"%char "10 million. "
       ++ "The board expects us to strengthen the midfield area. "
       ++ "Several targets have been shortlisted.")
      "7 Jan 2026" false ].

(** [_update_navigator]: a new helper over the summaries as they are
    now. *)
Definition _update_navigator (scr : t) : t :=
  {| emails := emails scr;
     navigator := Some (NavigationHelper.init (get_summary <$> emails scr));
     active := active scr; current_email := current_email scr |}.

(** The screen after the first steps of [__init__], before the
    bindings. *)
Definition new_screen : t :=
  _update_navigator
    {| emails := sample_emails; navigator := None; active := false;
       current_email := None |}.

(** [deactivate] *)
Definition deactivate (w : world) : world :=
  with_screen {| emails := emails (screen w); navigator := navigator (screen w);
                 active := false; current_email := None |} w.

(** [next_email]: an object of a class without [__bool__] and [__len__]
    is true, so [self.navigator] is false only when it is [None]. *)
Definition next_email (w : world) : option exn * world :=
  match active (screen w), navigator (screen w) with
  | true, Some nh =>
      let '(summary, nh') := NavigationHelper.next nh in
      (None, speak summary
               (with_screen {| emails := emails (screen w); navigator := Some nh';
                               active := true;
                               current_email := current_email (screen w) |} w))
  | _, _ => (None, w)
  end.

(** [previous_email] *)
Definition previous_email (w : world) : option exn * world :=
  match active (screen w), navigator (screen w) with
  | true, Some nh =>
      let '(summary, nh') := NavigationHelper.previous nh in
      (None, speak summary
               (with_screen {| emails := emails (screen w); navigator := Some nh';
                               active := true;
                               current_email := current_email (screen w) |} w))
  | _, _ => (None, w)
  end.


(** [read_full_email] *)
Definition read_full_email (w : world) : option exn * world :=
  match active (screen w), navigator (screen w) with
  | true, Some nh =>
      let index := NavigationHelper.get_current_index nh in
      match subscript (emails (screen w)) index with
      | Ok (_, email) =>
          (None, speak ("Email from " ++ sender email ++ ", dated " ++ date email
                        ++ ". " ++ "Subject: " ++ subject email ++ ". "
                        ++ "Message: " ++ content email) w)
      | Raise e => (Some e, w)
      end
  | _, _ => (None, w)
  end.

(** [open_email] *)
Definition open_email (w : world) : option exn * world :=
  match active (screen w), navigator (screen w) with
  | true, Some nh =>
      let index := NavigationHelper.get_current_index nh in
      match subscript (emails (screen w)) index with
      | Ok (pos, email) =>
          let scr1 := _update_navigator
                        {| emails := <[pos := mark_read email]> (emails (screen w));
                           navigator := Some nh; active := true;
                           current_email := Some pos |} in
          match navigator scr1 with
          | Some nh1 =>
              read_full_email
                (with_screen
                   {| emails := emails scr1;
                      navigator :=
                        Some (snd (NavigationHelper.set_index index nh1));
                      active := active scr1;
                      current_email := current_email scr1 |} w)
          | None => (Some AttributeError, with_screen scr1 w)
          end
      | Raise e => (Some e, w)
      end
  | _, _ => (None, w)
  end.

Definition help_text : string :=
  "Inbox Help. " ++ "Use up and down arrows to navigate emails. "
  ++ "Press Enter or R to read full email. "
  ++ "Press Escape to return to main menu. " ++ "Press H for help.".

(** [show_help] *)
Definition show_help (w : world) : option exn * world :=
  if active (screen w) then (None, speak help_text w) else (None, w).

(** [back] *)
Definition back (w : world) : option exn * world :=
  let w1 := deactivate (speak "Returning to main menu" w) in
  (None, {| screen := screen w1; spoken := spoken w1;
            stdout := stdout w1 ++ ["[Inbox] Back to main menu"] |}).

(** The bound methods that [_setup_bindings] gives to the handler. *)
Inductive callback :=
| CbPreviousEmail | CbNextEmail | CbOpenEmail | CbReadFullEmail | CbBack
| CbShowHelp.

Definition method (cb : callback) : world -> option exn * world :=
  match cb with
  | CbPreviousEmail => previous_email
  | CbNextEmail => next_email
  | CbOpenEmail => open_email
  | CbReadFullEmail => read_full_email
  | CbBack => back
  | CbShowHelp => show_help
  end.

(** Calling one of them from the handler: the methods do not touch the
    handler. *)
Definition call (cb : callback) (st : InputHandler.t callback * world)
  : option exn * (InputHandler.t callback * world) :=
  let '(r, w') := method cb st.2 in (r, (st.1, w')).

Abbreviation sys := (InputHandler.sys callback world).

(** [_setup_bindings] *)
Definition _setup_bindings (s : sys) : sys :=
  InputHandler.bind "h" "Help" CbShowHelp
    (InputHandler.bind "escape" "Back to menu" CbBack
       (InputHandler.bind "r" "Read full email" CbReadFullEmail
          (InputHandler.bind "enter" "Open email" CbOpenEmail
             (InputHandler.bind "down" "Next email" CbNextEmail
                (InputHandler.bind "up" "Previous email" CbPreviousEmail s))))).

(** [__init__] with the handler of [s]: the screen of the world is the
    new screen. *)
Definition init (s : sys) : sys :=
  _setup_bindings
    (InputHandler.Sys (InputHandler.handler s)
       (with_screen new_screen (InputHandler.env s)) (InputHandler.trace s)).




(** A new handler and a program that has said and printed nothing; its
    screen is a placeholder that [init] replaces. *)
Definition start : sys :=
  InputHandler.init None
    {| screen := {| emails := []; navigator := None; active := false;
                    current_email := None |};
       spoken := []; stdout := [] |}.


End InboxScreen.

(** * Properties *)

(** ** The list cursor *)
Module NavigationHelperSpec.
Import NavigationHelper.
Local Open Scope Z_scope.

Lemma truthy_nil (l : list string) : truthy l = false <-> l = [].
Proof. destruct l; simpl; split; congruence. Qed.

Lemma truthy_cons (l : list string) : truthy l = true <-> (0 < length l)%nat.
Proof. destruct l; simpl; split; (congruence || lia). Qed.

Lemma len_pos (nh : t) : truthy (items nh) = true -> 0 < len nh.
Proof. rewrite truthy_cons. unfold len. lia. Qed.

Lemma get_current_empty (nh : t) : items nh = [] -> get_current nh = "".
Proof. unfold get_current. intros ->. reflexivity. Qed.

(** Inside the bounds [get_current] is the subscript. *)
Lemma get_current_in_range (its : list string) (i : Z) :
  0 <= i < Z.of_nat (length its) ->
  get_current (Make its i) = nth (Z.to_nat i) its "".
Proof.
  intros Hi. unfold get_current, len. simpl.
  assert (Ht : truthy its = true) by (apply truthy_cons; lia).
  rewrite Ht.
  destruct (Z.leb_spec 0 i); [|lia].
  destruct (Z.ltb_spec i (Z.of_nat (length its))); [|lia].
  reflexivity.
Qed.

Lemma inv_init (its : list string) : inv (init its).
Proof. unfold inv, init, len. destruct its; simpl; lia. Qed.

Lemma inv_make (its : list string) (i : Z) :
  (0 < length its)%nat -> 0 <= i < Z.of_nat (length its) -> inv (Make its i).
Proof. unfold inv, len. destruct its; simpl; intros; lia. Qed.

(** Every method keeps the invariant. *)
Lemma exec_inv (o : op) (nh : t) : inv nh -> inv (snd (exec o nh)).
Proof.
  intros Hinv.
  destruct o; simpl; try exact Hinv.
  - unfold next. destruct (truthy (items nh)) eqn:Ht; simpl; [|exact Hinv].
    pose proof (len_pos _ Ht) as Hl. apply truthy_cons in Ht.
    apply inv_make; [exact Ht|]. apply Z.mod_pos_bound. exact Hl.
  - unfold previous. destruct (truthy (items nh)) eqn:Ht; simpl; [|exact Hinv].
    pose proof (len_pos _ Ht) as Hl. apply truthy_cons in Ht.
    apply inv_make; [exact Ht|]. apply Z.mod_pos_bound. exact Hl.
  - unfold first. simpl. apply (inv_init (items nh)).
  - unfold last. destruct (truthy (items nh)) eqn:Ht; simpl; [|exact Hinv].
    pose proof (len_pos _ Ht) as Hl. apply truthy_cons in Ht.
    apply inv_make; [exact Ht|]. unfold len in *. lia.
  - unfold set_index.
    destruct (truthy (items nh)) eqn:Ht; simpl; [|exact Hinv].
    destruct (Z.leb_spec 0 i); simpl; [|exact Hinv].
    destruct (Z.ltb_spec i (len nh)); simpl; [|exact Hinv].
    apply truthy_cons in Ht. apply inv_make; [exact Ht|]. unfold len in *. lia.
  - apply (inv_init its).
Qed.

Lemma run_snoc (os : list op) (o : op) (nh : t) :
  run (os ++ [o]) nh = snd (exec o (run os nh)).
Proof. unfold run. rewrite foldl_app. reflexivity. Qed.

Lemma run_inv (os : list op) (nh : t) : inv nh -> inv (run os nh).
Proof.
  revert nh. induction os as [|o os IH]; intros nh Hinv; simpl.
  - exact Hinv.
  - apply IH. apply exec_inv. exact Hinv.
Qed.

(** With no item every method that returns an item returns [""] and
    leaves the index where it is, except [first], which sets it to 0. *)
Lemma empty_accessors (nh : t) :
  items nh = [] ->
  next nh = ("", nh) /\ previous nh = ("", nh) /\
  first nh = ("", Make [] 0) /\ last nh = ("", nh) /\
  get_current nh = "" /\ forall i, set_index i nh = ("", nh).
Proof.
  intros He. unfold next, previous, first, last, set_index, get_current.
  rewrite He. simpl. repeat split; reflexivity.
Qed.

(** C4. In every state that a sequence of [next], [previous], [first],
    [last], [get_current], [set_index] and [update_items] calls reaches
    from a new helper, the index is within [0, length) when there are
    items and is 0 when there are none, and with no items every method
    that returns an item returns the empty string. *)
Theorem cursor_invariant (its : list string) (os : list op) :
  let nh := run os (init its) in
  match items nh with
  | _ :: _ => 0 <= get_current_index nh < len nh
  | [] =>
      get_current_index nh = 0 /\
      fst (next nh) = "" /\ fst (previous nh) = "" /\ fst (first nh) = "" /\
      fst (last nh) = "" /\ get_current nh = "" /\
      forall i, fst (set_index i nh) = ""
  end.
Proof.
  intros nh.
  assert (Hinv : inv nh) by (apply run_inv, inv_init).
  unfold get_current_index. unfold inv in Hinv.
  destruct (items nh) as [|x r] eqn:He; [|exact Hinv].
  destruct (empty_accessors nh He) as (Hn & Hp & Hf & Hl & Hg & Hs).
  rewrite Hn, Hp, Hf, Hl, Hg. cbn [fst]. repeat split; try assumption.
  intros i. rewrite Hs. reflexivity.
Qed.

Lemma nexts_state (n : nat) (its : list string) :
  (0 < length its)%nat ->
  nexts n (init its) = Make its (Z.of_nat n mod Z.of_nat (length its)).
Proof.
  intros Hl. induction n as [|n IH].
  - simpl. unfold init. rewrite Z.mod_0_l by lia. reflexivity.
  - unfold nexts in *. rewrite Nat.iter_succ, IH. unfold next. simpl.
    assert (Ht : truthy its = true) by (apply truthy_cons; exact Hl).
    rewrite Ht. simpl. unfold len. simpl. f_equal.
    rewrite Zplus_mod_idemp_l. f_equal. lia.
Qed.

Lemma previouses_state (n : nat) (its : list string) :
  (0 < length its)%nat ->
  previouses n (init its) = Make its ((- Z.of_nat n) mod Z.of_nat (length its)).
Proof.
  intros Hl. induction n as [|n IH].
  - simpl. unfold init. rewrite Z.mod_0_l by lia. reflexivity.
  - unfold previouses in *. rewrite Nat.iter_succ, IH. unfold previous. simpl.
    assert (Ht : truthy its = true) by (apply truthy_cons; exact Hl).
    rewrite Ht. simpl. unfold len. simpl. f_equal.
    rewrite Zminus_mod_idemp_l. f_equal. lia.
Qed.

Lemma nexts_empty (n : nat) : nexts n (init []) = init [].
Proof.
  induction n as [|n IH]; [reflexivity|].
  unfold nexts in *. rewrite Nat.iter_succ, IH. reflexivity.
Qed.

Lemma previouses_empty (n : nat) : previouses n (init []) = init [].
Proof.
  induction n as [|n IH]; [reflexivity|].
  unfold previouses in *. rewrite Nat.iter_succ, IH. reflexivity.
Qed.

(** C5. From a new helper over a non-empty sequence S, after n calls of
    [next] the index is n mod |S| and after n calls of [previous] it is
    (-n) mod |S|; over the empty sequence [next] and [previous] return
    the empty string and the index stays 0. *)
Theorem next_previous_index (x : string) (its : list string) (n : nat) :
  let S := x :: its in
  get_current_index (nexts n (init S)) = Z.of_nat n mod Z.of_nat (length S) /\
  get_current_index (previouses n (init S))
    = (- Z.of_nat n) mod Z.of_nat (length S) /\
  next (nexts n (init [])) = ("", init []) /\
  previous (previouses n (init [])) = ("", init []) /\
  get_current_index (init []) = 0.
Proof.
  intros S.
  rewrite nexts_state, previouses_state by (simpl; lia).
  rewrite nexts_empty, previouses_empty.
  repeat split; reflexivity.
Qed.

(** [set_index] by cases on the bounds test. *)
Lemma set_index_cases (i : Z) (nh : t) :
  set_index i nh =
    if bool_decide (0 <= i < len nh)
    then (nth (Z.to_nat i) (items nh) "", Make (items nh) i)
    else ("", nh).
Proof.
  unfold set_index. case_bool_decide as Hi.
  - assert (Ht : truthy (items nh) = true) by (apply truthy_cons; unfold len in Hi; lia).
    rewrite Ht. destruct (Z.leb_spec 0 i); [|lia].
    destruct (Z.ltb_spec i (len nh)); [|lia]. simpl.
    rewrite get_current_in_range by exact Hi. reflexivity.
  - destruct (truthy (items nh)); simpl; [|reflexivity].
    destruct (Z.leb_spec 0 i); simpl; [|reflexivity].
    destruct (Z.ltb_spec i (len nh)); simpl; [lia|reflexivity].
Qed.

(** C6. [set_index i] with i outside [0, |S|) returns the empty string
    and leaves the helper (index and items) as it was; with i inside it
    sets the index to i, leaves the items, and returns the item at
    position i. *)
Theorem set_index_validated (i : Z) (nh : t) :
  (~ 0 <= i < len nh -> set_index i nh = ("", nh)) /\
  (0 <= i < len nh ->
   set_index i nh = (nth (Z.to_nat i) (items nh) "", Make (items nh) i) /\
   items nh !! Z.to_nat i = Some (fst (set_index i nh))).
Proof.
  rewrite set_index_cases. split; intros Hi.
  - rewrite bool_decide_eq_false_2 by exact Hi. reflexivity.
  - rewrite bool_decide_eq_true_2 by exact Hi. split; [reflexivity|].
    simpl. destruct (nth_lookup_or_length (items nh) (Z.to_nat i) "") as [H|H];
      [exact H | unfold len in Hi; lia].
Qed.

(** C6 on a helper over three items, at index 1: 7 and -1 are refused,
    2 is taken. *)
Lemma set_index_validated_witness :
  set_index 7 (Make ["a"; "b"; "c"] 1) = ("", Make ["a"; "b"; "c"] 1) /\
  set_index (-1) (Make ["a"; "b"; "c"] 1) = ("", Make ["a"; "b"; "c"] 1) /\
  set_index 2 (Make ["a"; "b"; "c"] 1) = ("c", Make ["a"; "b"; "c"] 2).
Proof.
  split; [|split].
  - apply (proj1 (set_index_validated 7 (Make ["a"; "b"; "c"] 1))).
    unfold len; simpl; lia.
  - apply (proj1 (set_index_validated (-1) (Make ["a"; "b"; "c"] 1))).
    unfold len; simpl; lia.
  - apply (proj2 (set_index_validated 2 (Make ["a"; "b"; "c"] 1))).
    unfold len; simpl; lia.
Defined.

(** C7. [update_items] puts the new sequence in place and sets the
    index to 0, whatever the helper was before. *)
Theorem update_items_resets (nh : t) (its : list string) :
  items (update_items its nh) = its /\
  get_current_index (update_items its nh) = 0.
Proof. split; reflexivity. Qed.

End NavigationHelperSpec.

(** ** Strings *)
Module StrSpec.
Import Str.

Lemma split_not_nil (sep : ascii) (s : string) : split sep s <> [].
Proof.
  destruct s as [|c r]; simpl; [discriminate|].
  destruct (Ascii.eqb c sep); [discriminate|].
  destruct (split sep r); discriminate.
Qed.

Lemma join_cons (sep : ascii) (t : string) (ts : list string) :
  ts <> [] -> join sep (t :: ts) = t ++ String sep (join sep ts).
Proof. destruct ts; [congruence|reflexivity]. Qed.

(** Joining the pieces with the separator gives the string back. *)
Lemma join_split (sep : ascii) (s : string) : join sep (split sep s) = s.
Proof.
  induction s as [|c r IH]; [reflexivity|]. simpl.
  destruct (Ascii.eqb_spec c sep) as [->|Hne].
  - rewrite join_cons by apply split_not_nil. rewrite IH. reflexivity.
  - pose proof (split_not_nil sep r) as Hnn.
    destruct (split sep r) as [|t ts]; [congruence|].
    destruct ts as [|t' ts].
    + simpl in *. congruence.
    + rewrite join_cons by discriminate. rewrite join_cons in IH by discriminate.
      rewrite <- IH. reflexivity.
Qed.

(** No piece holds the separator. *)
Lemma split_free (sep : ascii) (s : string) :
  Forall (fun t => free_of sep t = true) (split sep s).
Proof.
  induction s as [|c r IH]; simpl.
  - repeat constructor.
  - destruct (Ascii.eqb c sep) eqn:Hc.
    + constructor; [reflexivity|exact IH].
    + destruct (split sep r) as [|t ts].
      * constructor; [simpl; rewrite Hc; reflexivity|constructor].
      * inversion IH; subst. constructor; [simpl; rewrite Hc; simpl; assumption|assumption].
Qed.

Lemma split_free_piece (sep : ascii) (t : string) :
  free_of sep t = true -> split sep t = [t].
Proof.
  induction t as [|c r IH]; simpl; [reflexivity|].
  destruct (Ascii.eqb c sep); simpl; [discriminate|].
  intros H. rewrite (IH H). reflexivity.
Qed.

Lemma split_app_sep (sep : ascii) (t rest : string) :
  free_of sep t = true ->
  split sep (t ++ String sep rest) = t :: split sep rest.
Proof.
  induction t as [|c r IH]; simpl.
  - rewrite Ascii.eqb_refl. reflexivity.
  - destruct (Ascii.eqb c sep); simpl; [discriminate|].
    intros H. rewrite (IH H). reflexivity.
Qed.

(** The pieces of a joined list of separator-free tokens are the
    tokens: a string has one list of tokens only. *)
Lemma split_join (sep : ascii) (ts : list string) :
  ts <> [] -> Forall (fun t => free_of sep t = true) ts ->
  split sep (join sep ts) = ts.
Proof.
  induction ts as [|t ts IH]; [congruence|]. intros _ Hf.
  inversion Hf as [|? ? Ht Hts]; subst.
  destruct ts as [|t' ts].
  - simpl. apply split_free_piece. exact Ht.
  - rewrite join_cons by discriminate. rewrite split_app_sep by exact Ht.
    rewrite IH; [reflexivity|discriminate|exact Hts].
Qed.

(** Lower-casing neither makes nor removes a plus sign. *)
Lemma lower_char_plus (c : ascii) :
  Ascii.eqb (lower_char c) "+" = Ascii.eqb c "+".
Proof. destruct c as [[] [] [] [] [] [] [] []]; reflexivity. Qed.

Lemma lower_char_idem (c : ascii) : lower_char (lower_char c) = lower_char c.
Proof. destruct c as [[] [] [] [] [] [] [] []]; reflexivity. Qed.

Lemma lower_idem (s : string) : lower (lower s) = lower s.
Proof.
  induction s as [|c r IH]; simpl; [reflexivity|].
  rewrite lower_char_idem, IH. reflexivity.
Qed.

(** The pieces of the lower-cased string are the lower-cased pieces. *)
Lemma split_lower (s : string) :
  split "+" (lower s) = lower <$> split "+" s.
Proof.
  induction s as [|c r IH]; [reflexivity|]. simpl.
  rewrite lower_char_plus. destruct (Ascii.eqb c "+").
  - rewrite IH. reflexivity.
  - rewrite IH. destruct (split "+" r); reflexivity.
Qed.

End StrSpec.

(** ** Key combinations *)
Module KeyComboSpec.
Import Str StrSpec InputHandler.
Local Open Scope list_scope.

Lemma parse_key_combo_parts (ms : list string) (k : string) (s : string) :
  split "+" (lower s) = ms ++ [k] -> parse_key_combo s = Ok (ms, k).
Proof.
  intros Hp. unfold parse_key_combo. rewrite Hp.
  destruct ms as [|m ms]; [reflexivity|]. cbv zeta.
  assert (Hlen : (length ((m :: ms) ++ [k]) =? 1)%nat = false).
  { apply Nat.eqb_neq. rewrite length_app. simpl. lia. }
  rewrite Hlen, last_snoc, removelast_last. reflexivity.
Qed.

(** The parser never raises. *)
Lemma parse_key_combo_total (s : string) :
  exists ms k, parse_key_combo s = Ok (ms, k).
Proof.
  destruct (exists_last (StrSpec.split_not_nil "+" (lower s))) as (ms & k & Hp).
  exists ms, k. apply parse_key_combo_parts. exact Hp.
Qed.

(** C3, as the code has it. Every combo string s is a list of one or
    more plus-free tokens joined by plus signs, and the parser returns
    the lower-cased tokens before the last, as a list in the order given
    with repeated tokens kept, and the lower-cased last token; for a
    single token ([ts] empty, [s = t]) the list is empty. *)
Theorem parse_key_combo_tokens (s : string) :
  exists (ts : list string) (t : string),
    s = join "+" (ts ++ [t]) /\
    Forall (fun x => free_of "+" x = true) (ts ++ [t]) /\
    parse_key_combo s = Ok (lower <$> ts, lower t).
Proof.
  destruct (exists_last (StrSpec.split_not_nil "+" s)) as (ts & t & Hp).
  exists ts, t.
  assert (Hs : s = join "+" (ts ++ [t])) by (rewrite <- Hp, join_split; reflexivity).
  split; [exact Hs|].
  split; [rewrite <- Hp; apply split_free|].
  assert (Hparse : parse_key_combo s = Ok (lower <$> ts, lower t)).
  { apply parse_key_combo_parts. rewrite split_lower, Hp, fmap_app. reflexivity. }
  exact Hparse.
Qed.

(** A string without a plus sign is a single token: no modifier. *)
Lemma parse_key_combo_single (s : string) :
  free_of "+" s = true -> parse_key_combo s = Ok ([], lower s).
Proof.
  intros Hf. apply (parse_key_combo_parts []).
  rewrite split_lower, split_free_piece by exact Hf. reflexivity.
Qed.

(** C3 as stated fails: a repeated modifier is kept twice, so two
    combos with the same set of modifiers and the same base key parse to
    different results, and so do two orders of the same modifiers. *)
Lemma parse_key_combo_not_a_set :
  parse_key_combo "ctrl+ctrl+s" = Ok (["ctrl"; "ctrl"], "s") /\
  ~ NoDup ["ctrl"; "ctrl"] /\
  parse_key_combo "ctrl+s" = Ok (["ctrl"], "s") /\
  parse_key_combo "ctrl+ctrl+s" <> parse_key_combo "ctrl+s" /\
  parse_key_combo "shift+ctrl+s" <> parse_key_combo "ctrl+shift+s".
Proof.
  split; [reflexivity|]. split.
  - intros H. apply NoDup_cons in H as [H _]. apply H. left.
  - split; [reflexivity|]. split; discriminate.
Qed.

End KeyComboSpec.

(** ** The dispatch table *)
Module InputHandlerSpec.
Import Str InputHandler.
Local Open Scope list_scope.

Section Dispatch.
Context {Callback World : Type}.
Variable call : Callback -> t Callback * World
                -> option exn * (t Callback * World).

Implicit Types (s : sys Callback World) (cb : Callback).

Lemma hotkeys_bind s key action cb k :
  hotkeys (handler (bind key action cb s)) !! k =
    if decide (lower key = k) then Some cb else hotkeys (handler s) !! k.
Proof. unfold bind. simpl. apply lookup_insert. Qed.

Lemma env_bind s key action cb : env (bind key action cb s) = env s.
Proof. reflexivity. Qed.

(** A binding survives the commands that keep its key. *)
Lemma hotkeys_exec (c : command Callback) s k :
  keeps k c -> hotkeys (handler (exec c s)) !! k = hotkeys (handler s) !! k.
Proof.
  destruct c as [key action cb|key|mode|]; cbn [exec keeps]; intros Hk.
  - rewrite hotkeys_bind. destruct (decide (lower key = k)); [contradiction|reflexivity].
  - unfold unbind. destruct (hotkeys (handler s) !! lower key); [|reflexivity].
    simpl. apply lookup_delete_ne. exact Hk.
  - unfold set_navigation_mode. case_bool_decide; reflexivity.
  - contradiction.
Qed.

Lemma hotkeys_run (cs : list (command Callback)) s k :
  Forall (keeps k) cs ->
  hotkeys (handler (run cs s)) !! k = hotkeys (handler s) !! k.
Proof.
  revert s. induction cs as [|c cs IH]; intros s Hf; [reflexivity|].
  inversion Hf as [|? ? Hc Hcs]; subst. unfold run in *. simpl.
  rewrite IH by exact Hcs. apply hotkeys_exec, Hc.
Qed.

(** Dispatch of a bound key, whatever the callback does. *)
Lemma handle_key_bound s key cb :
  hotkeys (handler s) !! lower key = Some cb ->
  handle_key call key s =
    let r := call cb (handler s, env s) in
    let s' := Sys r.2.1 r.2.2 (trace s ++ [Called cb]) in
    match r.1 with
    | None => (Ok true, s')
    | Some e =>
        if is_Exception e
        then (Ok false,
              print ("[InputHandler] Error handling key '" ++ lower key
                     ++ "': " ++ exn_str e)%string s')
        else (Raise e, s')
    end.
Proof.
  intros Hk. unfold handle_key. rewrite Hk.
  destruct (call cb (handler s, env s)) as [r [h' w']]. reflexivity.
Qed.

Lemma handle_key_unbound s key :
  hotkeys (handler s) !! lower key = None ->
  handle_key call key s = (Ok false, s).
Proof. intros Hk. unfold handle_key. rewrite Hk. reflexivity. Qed.

Lemma calls_app (tr1 tr2 : list (event Callback)) :
  calls (tr1 ++ tr2) = calls tr1 ++ calls tr2.
Proof.
  induction tr1 as [|[l|c] tr1 IH]; simpl; [reflexivity|exact IH|].
  rewrite IH. reflexivity.
Qed.

(** C2. After [bind k label cb], and any later commands that do not
    bind, unbind or clear the lower-cased form of [k], [handle_key k']
    for a case variant [k'] of [k] whose callback returns calls [cb]
    once (the state after is the state that this one call leaves, and
    [cb] is the one call added to the trace) and returns [True]; and
    [handle_key] of a key with no binding under its lower-cased form
    returns [False], calls nothing and leaves the state as it is. *)
Theorem handle_key_dispatch s (k k' label : string) cb
    (later : list (command Callback)) :
  (lower k' = lower k ->
   Forall (keeps (lower k)) later ->
   let s1 := run later (bind k label cb s) in
   let r := call cb (handler s1, env s1) in
   r.1 = None ->
   handle_key call k' s1
     = (Ok true, Sys r.2.1 r.2.2 (trace s1 ++ [Called cb])) /\
   calls (trace (handle_key call k' s1).2) = calls (trace s1) ++ [cb]) /\
  (hotkeys (handler s) !! lower k = None ->
   handle_key call k s = (Ok false, s)).
Proof.
  split.
  - intros Hk Hl s1 r Hr.
    assert (Hb : hotkeys (handler s1) !! lower k' = Some cb).
    { unfold s1. rewrite Hk, hotkeys_run by exact Hl. rewrite hotkeys_bind.
      destruct (decide (lower k = lower k)); [reflexivity|contradiction]. }
    rewrite (handle_key_bound _ _ _ Hb). cbv zeta. fold r. rewrite Hr.
    split; [reflexivity|]. simpl. rewrite calls_app. reflexivity.
  - apply handle_key_unbound.
Qed.

(** C1, as the code has it. When the callback bound to [k] raises an
    exception that derives from [Exception], [handle_key k] catches it,
    prints a report and returns [False] (not [True]); the handler is then
    in the state the callback left, and [handle_key k2] of any key bound
    in that state calls its callback, returning [True] when it
    returns. *)
Theorem handle_key_callback_failure s (k : string) cb (e : exn) :
  hotkeys (handler s) !! lower k = Some cb ->
  let r := call cb (handler s, env s) in
  r.1 = Some e ->
  is_Exception e = true ->
  let s' := Sys r.2.1 r.2.2
              (trace s ++ [Called cb;
                           Printed ("[InputHandler] Error handling key '"
                                    ++ lower k ++ "': " ++ exn_str e)%string]) in
  handle_key call k s = (Ok false, s') /\
  forall (k2 : string) (cb2 : Callback),
    hotkeys (handler s') !! lower k2 = Some cb2 ->
    let r2 := call cb2 (handler s', env s') in
    calls (trace (handle_key call k2 s').2) = calls (trace s') ++ [cb2] /\
    handler (handle_key call k2 s').2 = r2.2.1 /\
    env (handle_key call k2 s').2 = r2.2.2 /\
    (r2.1 = None -> (handle_key call k2 s').1 = Ok true).
Proof.
  intros Hk r Hr He s'. split.
  - rewrite (handle_key_bound _ _ _ Hk). cbv zeta. fold r. rewrite Hr, He.
    unfold print, s'. simpl. rewrite <- app_assoc. reflexivity.
  - intros k2 cb2 Hk2 r2.
    rewrite (handle_key_bound _ _ _ Hk2). cbv zeta. fold r2.
    destruct (r2.1) as [e2|] eqn:Hr2.
    + destruct (is_Exception e2); simpl; rewrite ?calls_app; simpl;
        rewrite ?app_nil_r; repeat split; try reflexivity; discriminate.
    + simpl. rewrite calls_app. repeat split; reflexivity.
Qed.

End Dispatch.

Import Scenario.

(** C2 on a run: "r" is bound, then "x" is bound, "q" is unbound and
    the mode is set; "R" is dispatched, "z" is not. *)
Lemma handle_key_dispatch_witness :
  (handle_key call "R"
     (run [Bind "x" "Boom" Boom; Unbind "Q"; SetNavigationMode "list"]
        (bind "r" "Read" Count start))).1 = Ok true /\
  env (handle_key call "R"
         (run [Bind "x" "Boom" Boom; Unbind "Q"; SetNavigationMode "list"]
            (bind "r" "Read" Count start))).2 = 1%nat /\
  handle_key call "z" start = (Ok false, start).
Proof.
  destruct (proj1 (handle_key_dispatch call start "r" "R" "Read" Count
                     [Bind "x" "Boom" Boom; Unbind "Q";
                      SetNavigationMode "list"])
              eq_refl
              ltac:(repeat constructor; discriminate)
              eq_refl) as [H _].
  rewrite H. split; [reflexivity|]. split; [reflexivity|].
  apply (proj2 (handle_key_dispatch call start "z" "z" "" Count [])).
  reflexivity.
Defined.

(** C1 as stated fails: the callback of "x" raises, and [handle_key]
    returns [False]. *)
Lemma handle_key_failure_returns_false :
  (handle_key call "x" (bind "x" "Boom" Boom start)).1 = Ok false /\
  (handle_key call "x" (bind "x" "Boom" Boom start)).1 <> Ok true.
Proof. split; [reflexivity|discriminate]. Qed.

(** What does not derive from [Exception] is not caught. *)
Lemma handle_key_interrupt_propagates :
  (handle_key call "i" (bind "i" "Stop" Interrupt start)).1
  = Raise (Exn false "KeyboardInterrupt").
Proof. reflexivity. Qed.

(** C1 on a run: "x" raises, then "y" is dispatched. *)
Lemma handle_key_callback_failure_witness :
  (handle_key call "X"
     (bind "y" "Count" Count (bind "x" "Boom" Boom start))).1 = Ok false /\
  (handle_key call "Y"
     (handle_key call "X"
        (bind "y" "Count" Count (bind "x" "Boom" Boom start))).2).1
  = Ok true /\
  env (handle_key call "Y"
         (handle_key call "X"
            (bind "y" "Count" Count (bind "x" "Boom" Boom start))).2).2
  = 1%nat.
Proof.
  destruct (handle_key_callback_failure call
              (bind "y" "Count" Count (bind "x" "Boom" Boom start))
              "X" Boom (Exn true "bad value")
              eq_refl eq_refl eq_refl) as [H1 H2].
  rewrite H1. cbn [fst snd].
  destruct (H2 "Y" Count eq_refl) as (_ & _ & Henv & Hret).
  split; [reflexivity|]. split; [apply Hret; reflexivity|exact Henv].
Defined.

End InputHandlerSpec.

(** ** The preset table *)
Module KeyboardMapperSpec.
Import Str KeyboardMapper.
Local Open Scope list_scope.

Implicit Types (s : state) (d m : dict) (l : loc) (p q name : string).

(** *** The heap discipline *)

Lemma new_dict_fresh d s : heap s !! (new_dict d s).1 = None.
Proof. simpl. apply not_elem_of_dom, is_fresh. Qed.

Lemma wf_print line s : wf s -> wf (print line s).
Proof. intros H. exact H. Qed.

Lemma wf_set_dict l d s : wf s -> wf (set_dict l d s).
Proof.
  intros [Hd Hi]. split; [|exact Hi]. simpl. intros p l' Hp.
  rewrite lookup_insert. case_decide; [eauto|]. eapply Hd, Hp.
Qed.

Lemma wf_assign_new name d s : wf s -> wf (assign_new name d s).
Proof.
  intros [Hd Hi]. pose proof (new_dict_fresh d s) as Hf.
  unfold assign_new. simpl in *. set (l0 := fresh (dom (heap s))) in *.
  assert (Hne : forall p l, mappings s !! p = Some l -> l <> l0).
  { intros p l Hp ->. destruct (Hd _ _ Hp) as [? Hx]. congruence. }
  split; simpl.
  - intros p l. rewrite lookup_insert. case_decide.
    + intros [= <-]. rewrite lookup_insert_eq. eauto.
    + intros Hp. rewrite lookup_insert_ne by (apply not_eq_sym; eapply Hne, Hp).
      eapply Hd, Hp.
  - intros p q l. rewrite !lookup_insert. repeat case_decide; intros Hp Hq.
    + congruence.
    + injection Hp as <-. exfalso. eapply Hne; [exact Hq|reflexivity].
    + injection Hq as <-. exfalso. eapply Hne; [exact Hp|reflexivity].
    + eapply Hi; eassumption.
Qed.

(** *** Reading a table after a write *)

Lemma table_print line s p : table (print line s) p = table s p.
Proof. reflexivity. Qed.

Lemma table_assign_new name d s p :
  wf s ->
  table (assign_new name d s) p = if decide (name = p) then Some d else table s p.
Proof.
  intros [Hd _]. pose proof (new_dict_fresh d s) as Hf.
  unfold table, assign_new, deref. simpl in *.
  rewrite lookup_insert. case_decide.
  - simpl. rewrite lookup_insert_eq. reflexivity.
  - destruct (mappings s !! p) as [l|] eqn:Hp; [|reflexivity]. simpl.
    rewrite lookup_insert_ne; [reflexivity|].
    intros <-. destruct (Hd _ _ Hp) as [? Hx]. congruence.
Qed.

Lemma table_set_dict name l d s p :
  wf s -> mappings s !! name = Some l ->
  table (set_dict l d s) p = if decide (name = p) then Some d else table s p.
Proof.
  intros [_ Hi] Hn. unfold table, deref. simpl. case_decide as Hnp.
  - subst p. rewrite Hn. simpl. rewrite lookup_insert_eq. reflexivity.
  - destruct (mappings s !! p) as [l'|] eqn:Hp; [|reflexivity]. simpl.
    rewrite lookup_insert_ne; [reflexivity|].
    intros <-. apply Hnp. eapply Hi; eassumption.
Qed.

Lemma table_lookup s p l : mappings s !! p = Some l -> table s p = Some (deref s l).
Proof. unfold table. intros ->. reflexivity. Qed.

Lemma table_none s p : mappings s !! p = None -> table s p = None.
Proof. unfold table. intros ->. reflexivity. Qed.

Lemma get_mappings_table preset s :
  get_mappings preset s = default ∅ (table s (or_current preset s)).
Proof.
  unfold get_mappings, table. destruct (mappings s !! or_current preset s); reflexivity.
Qed.

Lemma or_current_some p s : p <> "" -> or_current (Some p) s = p.
Proof.
  intros Hp. simpl. destruct (String.eqb_spec p ""); [contradiction|reflexivity].
Qed.

(** *** The methods keep the heap discipline *)

Lemma wf_merge_preset s (pm : string * dict) : wf s -> wf (merge_preset s pm).
Proof.
  destruct pm as [p m]. unfold merge_preset.
  destruct (mappings s !! p); intros H; [apply wf_set_dict|apply wf_assign_new]; exact H.
Qed.

Lemma wf_foldl_merge (pms : list (string * dict)) s :
  wf s -> wf (foldl merge_preset s pms).
Proof.
  revert s. induction pms as [|pm pms IH]; intros s H; [exact H|].
  simpl. apply IH, wf_merge_preset, H.
Qed.

Lemma wf_load_config filepath src s : wf s -> wf (load_config filepath src s).
Proof.
  intros H. destruct src; simpl; apply wf_print; try exact H.
  apply wf_foldl_merge, H.
Qed.

Lemma wf_set_preset p s : wf s -> wf (set_preset p s).2.
Proof. intros H. unfold set_preset. destruct (mappings s !! p); exact H. Qed.

Lemma wf_map_key key action preset s : wf s -> wf (map_key key action preset s).
Proof.
  intros H. unfold map_key.
  destruct (mappings s !! or_current preset s) as [l|].
  - apply wf_print, wf_set_dict, H.
  - apply wf_print, wf_set_dict. apply (wf_assign_new _ ∅ s H).
Qed.

Lemma wf_unmap_key key preset s : wf s -> wf (unmap_key key preset s).
Proof.
  intros H. unfold unmap_key.
  destruct (mappings s !! or_current preset s) as [l|]; [|exact H].
  destruct (deref s l !! lower key); [|exact H].
  apply wf_print, wf_set_dict, H.
Qed.

Lemma wf_create_preset name base s : wf s -> wf (create_preset name base s).
Proof.
  intros H. unfold create_preset.
  match goal with |- wf (match ?x with _ => _ end) => destruct x as [[b l]|] end;
    apply wf_print, wf_assign_new, H.
Qed.

Lemma wf_init_default_mappings s : wf s -> wf (_init_default_mappings s).
Proof. intros H. unfold _init_default_mappings. do 5 apply wf_assign_new. exact H. Qed.

Lemma wf_no_preset cf cur h out : wf (State ∅ cf cur h out).
Proof. split; simpl; intros *; rewrite lookup_empty; discriminate. Qed.

Lemma wf_init file : wf (init file).
Proof.
  unfold init. destruct file as [[path src]|]; cbv zeta;
    [destruct (String.eqb path "")|]; try apply wf_load_config;
    apply wf_init_default_mappings, wf_no_preset.
Qed.

Lemma wf_exec c s : wf s -> wf (exec c s).
Proof.
  intros H. destruct c; simpl.
  - apply wf_load_config, H.
  - apply wf_set_preset, H.
  - apply wf_map_key, H.
  - apply wf_unmap_key, H.
  - apply wf_create_preset, H.
Qed.

(** In every state of a mapper no reference dangles and no two presets
    share a dict object. *)
Lemma reachable_wf s : reachable s -> wf s.
Proof. induction 1; [apply wf_init|apply wf_exec; assumption]. Qed.

(** *** What each method does to the tables *)

Lemma table_merge_preset s name m p :
  wf s ->
  table (merge_preset s (name, m)) p =
    if decide (name = p) then Some (m ∪ default ∅ (table s p)) else table s p.
Proof.
  intros H. unfold merge_preset.
  destruct (mappings s !! name) as [l|] eqn:Hn.
  - rewrite (table_set_dict name) by assumption.
    case_decide; [|reflexivity]. subst p.
    rewrite (table_lookup _ _ _ Hn). reflexivity.
  - rewrite table_assign_new by assumption.
    case_decide; [|reflexivity]. subst p.
    rewrite (table_none _ _ Hn). simpl. rewrite (right_id_L ∅ (∪)). reflexivity.
Qed.

Lemma table_foldl_merge (pms : list (string * dict)) s p :
  NoDup pms.*1 -> wf s ->
  table (foldl merge_preset s pms) p =
    match (list_to_map pms : gmap string dict) !! p with
    | Some m => Some (m ∪ default ∅ (table s p))
    | None => table s p
    end.
Proof.
  revert s. induction pms as [|[n m] pms IH]; intros s Hnd H; [reflexivity|].
  rewrite fmap_cons in Hnd. apply NoDup_cons in Hnd as [Hn Hnd]. cbn [fst] in Hn.
  change (foldl merge_preset s ((n, m) :: pms))
    with (foldl merge_preset (merge_preset s (n, m)) pms).
  rewrite (IH (merge_preset s (n, m)) Hnd (wf_merge_preset s (n, m) H)).
  rewrite table_merge_preset by assumption.
  change (list_to_map ((n, m) :: pms) : gmap string dict)
    with (<[n := m]> (list_to_map pms : gmap string dict)).
  rewrite lookup_insert. case_decide as Hnp.
  - subst p. rewrite (not_elem_of_list_to_map_1 _ _ Hn). reflexivity.
  - reflexivity.
Qed.

Lemma table_load_config_parsed filepath (doc : gmap string dict) s p :
  wf s ->
  table (load_config filepath (Parsed doc) s) p =
    match doc !! p with
    | Some m => Some (m ∪ default ∅ (table s p))
    | None => table s p
    end.
Proof.
  intros H. simpl. rewrite table_print.
  rewrite table_foldl_merge by (try assumption; apply NoDup_fst_map_to_list).
  rewrite list_to_map_to_list. reflexivity.
Qed.

Lemma table_map_key key action preset s p :
  wf s ->
  table (map_key key action preset s) p =
    if decide (or_current preset s = p)
    then Some (<[lower key := action]> (default ∅ (table s p)))
    else table s p.
Proof.
  intros H. unfold map_key. set (n := or_current preset s).
  destruct (mappings s !! n) as [l|] eqn:Hn.
  - rewrite table_print, (table_set_dict n) by assumption.
    case_decide; [|reflexivity]. subst p.
    rewrite (table_lookup _ _ _ Hn). reflexivity.
  - pose proof (wf_assign_new n ∅ s H) as H'.
    pose proof (table_assign_new n ∅ s n H) as Hnew.
    unfold assign_new in *. simpl in H', Hnew |- *.
    rewrite table_print.
    rewrite (table_set_dict n (fresh (dom (heap s)))); [|exact H'|simpl; apply lookup_insert_eq].
    pose proof (table_assign_new n ∅ s p H) as Hp. unfold assign_new in Hp. simpl in Hp.
    case_decide as Hnp.
    + subst p. rewrite (table_none _ _ Hn). simpl.
      unfold deref. simpl. rewrite lookup_insert_eq. reflexivity.
    + rewrite Hp. destruct (decide (n = p)); [contradiction|reflexivity].
Qed.

Lemma table_unmap_key key preset s p :
  wf s ->
  table (unmap_key key preset s) p =
    if decide (or_current preset s = p)
    then delete (lower key) <$> table s p
    else table s p.
Proof.
  intros H. unfold unmap_key. set (n := or_current preset s).
  destruct (mappings s !! n) as [l|] eqn:Hn.
  - destruct (deref s l !! lower key) eqn:Hk.
    + rewrite table_print, (table_set_dict n) by assumption.
      case_decide; [|reflexivity]. subst p.
      rewrite (table_lookup _ _ _ Hn). reflexivity.
    + case_decide; [|reflexivity]. subst p.
      rewrite (table_lookup _ _ _ Hn). simpl.
      rewrite delete_id by exact Hk. reflexivity.
  - case_decide; [|reflexivity]. subst p.
    rewrite (table_none _ _ Hn). reflexivity.
Qed.

(** The table that [create_preset] copies: the base preset's when a base
    is given (and is not the empty string) and is a preset, else the
    empty table. *)
Lemma table_create_preset name base s p :
  wf s ->
  table (create_preset name base s) p =
    if decide (name = p)
    then Some (match base with
               | Some b => if String.eqb b "" then ∅ else default ∅ (table s b)
               | None => ∅
               end)
    else table s p.
Proof.
  intros H. unfold create_preset.
  destruct base as [b|]; [destruct (String.eqb b "")|].
  - rewrite table_print, table_assign_new by assumption. reflexivity.
  - destruct (mappings s !! b) as [l|] eqn:Hb; simpl;
      rewrite table_print, table_assign_new by assumption.
    + rewrite (table_lookup _ _ _ Hb). reflexivity.
    + rewrite (table_none _ _ Hb). reflexivity.
  - rewrite table_print, table_assign_new by assumption. reflexivity.
Qed.

(** *** Edits of one preset *)

Lemma wf_edits name (es : list edit) s : wf s -> wf (foldl (apply_edit name) s es).
Proof.
  revert s. induction es as [|e es IH]; intros s H; [exact H|].
  simpl. apply IH. destruct e; simpl; [apply wf_map_key|apply wf_unmap_key]; exact H.
Qed.

(** Edits of a preset leave the table of every other preset alone. *)
Lemma table_edits name (es : list edit) s p :
  wf s -> name <> "" -> name <> p ->
  table (foldl (apply_edit name) s es) p = table s p.
Proof.
  intros H Hname Hp. revert s H.
  induction es as [|e es IH]; intros s H; [reflexivity|].
  simpl. rewrite IH.
  - destruct e; simpl.
    + rewrite table_map_key, or_current_some by assumption.
      destruct (decide (name = p)); [contradiction|reflexivity].
    + rewrite table_unmap_key, or_current_some by assumption.
      destruct (decide (name = p)); [contradiction|reflexivity].
  - destruct e; simpl; [apply wf_map_key|apply wf_unmap_key]; exact H.
Qed.

(** C8. In every state of a mapper, after [create_preset x base] (two
    different, non-empty names, as "x" and "default") [get_mappings x] is
    what [get_mappings base] was, and after any later [map_key] and
    [unmap_key] calls on preset [x], [get_mappings base] is still what it
    was. *)
Theorem create_preset_copy_isolated s name base (es : list edit) :
  reachable s -> name <> "" -> base <> "" -> name <> base ->
  get_mappings (Some name) (create_preset name (Some base) s)
    = get_mappings (Some base) s /\
  get_mappings (Some base)
      (foldl (apply_edit name) (create_preset name (Some base) s) es)
    = get_mappings (Some base) s.
Proof.
  intros Hr Hname Hbase Hne. apply reachable_wf in Hr.
  pose proof (wf_create_preset name (Some base) s Hr) as Hc.
  rewrite !get_mappings_table, !or_current_some by assumption.
  rewrite table_edits by assumption.
  rewrite !table_create_preset by assumption.
  destruct (decide (name = name)); [|contradiction].
  destruct (decide (name = base)); [contradiction|].
  destruct (String.eqb_spec base ""); [contradiction|].
  split; reflexivity.
Qed.

Lemma create_preset_copy_isolated_witness :
  get_mappings (Some "x") (create_preset "x" (Some "default") (init None))
    = default_table /\
  get_mappings (Some "default")
      (foldl (apply_edit "x") (create_preset "x" (Some "default") (init None))
             [EMap "Ctrl+S" "stop"; EUnmap "up"; EMap "z" "zoom"])
    = default_table.
Proof.
  exact (create_preset_copy_isolated (init None) "x" "default"
           [EMap "Ctrl+S" "stop"; EUnmap "up"; EMap "z" "zoom"]
           (reach_init None) ltac:(discriminate) ltac:(discriminate)
           ltac:(discriminate)).
Defined.

(** C9. In every state of a mapper, [load_config] of a parsed document
    leaves each preset that the document names with the document's
    key-action pairs on top of the pairs the preset had (none, if it is
    new): on each key the document's action if it gives one, else the
    action the preset had; a preset the document does not name keeps its
    table.  When the text is not JSON the error is printed and nothing
    else of the state changes. *)
Theorem load_config_merges s (filepath : string) :
  reachable s ->
  (forall (doc : gmap string dict) p,
     table (load_config filepath (Parsed doc) s) p =
       match doc !! p with
       | Some m => Some (m ∪ default ∅ (table s p))
       | None => table s p
       end) /\
  (forall (doc : gmap string dict) p m (k : string),
     doc !! p = Some m ->
     exists d', table (load_config filepath (Parsed doc) s) p = Some d' /\
       d' !! k = match m !! k with
                 | Some a => Some a
                 | None => default ∅ (table s p) !! k
                 end) /\
  (forall msg : string,
     load_config filepath (JSONDecodeError msg) s
       = State (mappings s) (config_file s) (current_preset s) (heap s)
           (stdout s ++ [("[KeyboardMapper] Error parsing config file: "
                          ++ msg)%string]) /\
     forall p, table (load_config filepath (JSONDecodeError msg) s) p
               = table s p).
Proof.
  intros Hr. apply reachable_wf in Hr. split; [|split].
  - intros doc p. apply table_load_config_parsed, Hr.
  - intros doc p m k Hp. rewrite table_load_config_parsed, Hp by exact Hr.
    eexists; split; [reflexivity|]. rewrite lookup_union.
    destruct (m !! k), (default ∅ (table s p) !! k); reflexivity.
  - intros msg. split; [reflexivity|]. intros p. reflexivity.
Qed.

(** C9 on the run of the specification: "p1" holds "a" -> "old" and
    "b" -> "keep", the document gives "p1" the pair "a" -> "act1". *)
Lemma load_config_merges_witness :
  table
    (load_config "keys.json" (Parsed {[ "p1" := {[ "a" := "act1" ]} ]})
       (exec (MapKey "b" "keep" (Some "p1"))
          (exec (MapKey "a" "old" (Some "p1")) (init None))))
    "p1"
  = Some (<[ "a" := "act1" ]> {[ "b" := "keep" ]}).
Proof.
  rewrite (proj1 (load_config_merges
                    (exec (MapKey "b" "keep" (Some "p1"))
                       (exec (MapKey "a" "old" (Some "p1")) (init None)))
                    "keys.json"
                    (reach_exec _ _ (reach_exec _ _ (reach_init None))))).
  vm_compute. reflexivity.
Defined.

(** C10. In every state of a mapper, [create_preset name base] for a
    name that is a preset already leaves [name] with exactly the table
    of [base] when a base is given, is not the empty string and is a
    preset, and with the empty table otherwise: nothing of the table
    that [name] had is kept (unless [base] is [name] itself), and no
    other preset changes. *)
Theorem create_preset_replaces s name (base : option string) :
  reachable s -> is_Some (table s name) ->
  table (create_preset name base s) name
    = Some (match base with
            | Some b => if String.eqb b "" then ∅ else default ∅ (table s b)
            | None => ∅
            end) /\
  forall p, p <> name -> table (create_preset name base s) p = table s p.
Proof.
  intros Hr _. apply reachable_wf in Hr. split.
  - rewrite table_create_preset by exact Hr.
    destruct (decide (name = name)); [reflexivity|contradiction].
  - intros p Hp. rewrite table_create_preset by exact Hr.
    destruct (decide (name = p)); [subst; contradiction|reflexivity].
Qed.

Lemma create_preset_replaces_witness :
  table (create_preset "match" (Some "inbox") (init None)) "match"
    = Some inbox_table /\
  table (create_preset "match" None (init None)) "match" = Some ∅ /\
  table (create_preset "match" (Some "nope") (init None)) "match" = Some ∅.
Proof.
  assert (Hm : is_Some (table (init None) "match"))
    by (exists match_table; vm_compute; reflexivity).
  split; [|split].
  - rewrite (proj1 (create_preset_replaces (init None) "match" (Some "inbox")
                      (reach_init None) Hm)).
    vm_compute. reflexivity.
  - rewrite (proj1 (create_preset_replaces (init None) "match" None
                      (reach_init None) Hm)).
    reflexivity.
  - rewrite (proj1 (create_preset_replaces (init None) "match" (Some "nope")
                      (reach_init None) Hm)).
    vm_compute. reflexivity.
Defined.

End KeyboardMapperSpec.

(** * Further properties of the code *)

(** ** The list cursor: moves, ends and wrap-around *)
Module CursorLaws.
Import NavigationHelper NavigationHelperSpec.
Local Open Scope Z_scope.

Lemma truthy_in_range (nh : t) :
  0 <= current_index nh < len nh -> truthy (items nh) = true.
Proof. intros H. apply truthy_cons. unfold len in H. lia. Qed.

Lemma next_in_range (nh : t) :
  0 <= current_index nh < len nh ->
  snd (next nh) = Make (items nh) ((current_index nh + 1) mod len nh).
Proof. intros H. unfold next. rewrite truthy_in_range by exact H. reflexivity. Qed.

Lemma previous_in_range (nh : t) :
  0 <= current_index nh < len nh ->
  snd (previous nh) = Make (items nh) ((current_index nh - 1) mod len nh).
Proof. intros H. unfold previous. rewrite truthy_in_range by exact H. reflexivity. Qed.

(** X1. [next] and [previous] undo each other in every state that keeps
    the cursor invariant, the empty one included. *)
Theorem next_previous_inverse (nh : t) :
  inv nh ->
  snd (previous (snd (next nh))) = nh /\ snd (next (snd (previous nh))) = nh.
Proof.
  destruct nh as [its i]. unfold inv. simpl.
  destruct its as [|x r]; [intros ->; split; reflexivity|].
  intros Hi. set (nh := Make (x :: r) i).
  assert (Hr : 0 <= current_index nh < len nh) by exact Hi.
  assert (Hl : 0 < len nh) by lia.
  split.
  - rewrite (next_in_range nh Hr).
    rewrite previous_in_range
      by (simpl; apply Z.mod_pos_bound; exact Hl).
    unfold nh, len in *. simpl in *. f_equal.
    rewrite Zminus_mod_idemp_l. replace (i + 1 - 1) with i by lia.
    apply Z.mod_small. lia.
  - rewrite (previous_in_range nh Hr).
    rewrite next_in_range
      by (simpl; apply Z.mod_pos_bound; exact Hl).
    unfold nh, len in *. simpl in *. f_equal.
    rewrite Zplus_mod_idemp_l. replace (i - 1 + 1) with i by lia.
    apply Z.mod_small. lia.
Qed.

Lemma next_previous_inverse_witness :
  snd (previous (snd (next (Make ["a"; "b"; "c"] 2)))) = Make ["a"; "b"; "c"] 2 /\
  snd (next (snd (previous (Make ["a"; "b"; "c"] 0)))) = Make ["a"; "b"; "c"] 0.
Proof.
  split.
  - apply (next_previous_inverse (Make ["a"; "b"; "c"] 2)).
    unfold inv, len; simpl; lia.
  - apply (next_previous_inverse (Make ["a"; "b"; "c"] 0)).
    unfold inv, len; simpl; lia.
Defined.

(** X2. From any index inside the bounds, n calls of [next] move the cursor
    to (index + n) mod length and n calls of [previous] to
    (index - n) mod length; so as many calls of either as there are
    items bring the helper back to where it was. *)
Theorem nexts_previouses_shift (nh : t) (n : nat) :
  0 <= current_index nh < len nh ->
  nexts n nh = Make (items nh) ((current_index nh + Z.of_nat n) mod len nh) /\
  previouses n nh
    = Make (items nh) ((current_index nh - Z.of_nat n) mod len nh) /\
  nexts (length (items nh)) nh = nh /\
  previouses (length (items nh)) nh = nh.
Proof.
  intros Hi. destruct nh as [its i]. unfold len in *. simpl in *.
  remember (Z.of_nat (length its)) as L eqn:HL.
  assert (Hn : forall m, nexts m (Make its i)
                         = Make its ((i + Z.of_nat m) mod L)).
  { induction m as [|m IH].
    - simpl. rewrite Z.add_0_r, Z.mod_small by lia. reflexivity.
    - unfold nexts in *. rewrite Nat.iter_succ, IH.
      rewrite next_in_range
        by (unfold len; simpl; rewrite <- HL; apply Z.mod_pos_bound; lia).
      unfold len. simpl. rewrite <- HL. f_equal.
      rewrite Zplus_mod_idemp_l. f_equal. lia. }
  assert (Hp : forall m, previouses m (Make its i)
                         = Make its ((i - Z.of_nat m) mod L)).
  { induction m as [|m IH].
    - simpl. rewrite Z.sub_0_r, Z.mod_small by lia. reflexivity.
    - unfold previouses in *. rewrite Nat.iter_succ, IH.
      rewrite previous_in_range
        by (unfold len; simpl; rewrite <- HL; apply Z.mod_pos_bound; lia).
      unfold len. simpl. rewrite <- HL. f_equal.
      rewrite Zminus_mod_idemp_l. f_equal. lia. }
  split; [apply Hn|]. split; [apply Hp|]. rewrite Hn, Hp, <- HL.
  split; f_equal.
  - replace (i + L) with (i + 1 * L) by lia.
    rewrite Z_mod_plus_full. apply Z.mod_small. lia.
  - replace (i - L) with (i + (-1) * L) by lia.
    rewrite Z_mod_plus_full. apply Z.mod_small. lia.
Qed.

Lemma nexts_previouses_shift_witness :
  nexts 5 (Make ["a"; "b"; "c"] 2) = Make ["a"; "b"; "c"] 1 /\
  previouses 3 (Make ["a"; "b"; "c"] 2) = Make ["a"; "b"; "c"] 2.
Proof.
  destruct (nexts_previouses_shift (Make ["a"; "b"; "c"] 2) 5
              ltac:(unfold len; simpl; lia)) as (H1 & _ & _ & _).
  destruct (nexts_previouses_shift (Make ["a"; "b"; "c"] 2) 3
              ltac:(unfold len; simpl; lia)) as (_ & H2 & _ & _).
  split; [exact H1|exact H2].
Defined.

Lemma nth_last (l : list string) (y : string) :
  list.last l = Some y -> nth (Nat.pred (length l)) l "" = y.
Proof. intros H. apply nth_lookup_Some. rewrite <- last_lookup. exact H. Qed.

(** X3. On a helper with items, whatever its index: [first] goes to index 0
    and returns the first item, [last] goes to the last index and
    returns the last item, [next] from the last index wraps to the first
    item and [previous] from index 0 wraps to the last item. *)
Theorem first_last_wrap (x : string) (r : list string) (i : Z) :
  let nh := Make (x :: r) i in
  first nh = (x, Make (x :: r) 0) /\
  (exists y, list.last (x :: r) = Some y /\
             last nh = (y, Make (x :: r) (len nh - 1))) /\
  next (snd (last nh)) = first nh /\
  previous (snd (first nh)) = last nh.
Proof.
  intros nh.
  assert (Hlen : 0 < len nh) by (unfold len; simpl; lia).
  assert (Hf : first nh = (x, Make (x :: r) 0)).
  { unfold first. simpl. rewrite get_current_in_range by (simpl; lia). reflexivity. }
  destruct (list.last (x :: r)) as [y|] eqn:Hy;
    [|apply last_None in Hy; discriminate].
  assert (Hl : last nh = (y, Make (x :: r) (len nh - 1))).
  { unfold last. simpl. rewrite get_current_in_range by (unfold len in *; simpl in *; lia).
    f_equal. rewrite <- (nth_last _ _ Hy). f_equal. unfold len. simpl. lia. }
  split; [exact Hf|]. split; [exists y; split; [reflexivity|exact Hl]|].
  rewrite Hl, Hf. cbn [snd]. unfold next, previous.
  cbn [items current_index truthy].
  change (len (Make (x :: r) (len nh - 1))) with (len nh).
  change (len (Make (x :: r) 0)) with (len nh).
  assert (E1 : (len nh - 1 + 1) mod len nh = 0).
  { replace (len nh - 1 + 1) with (0 + 1 * len nh) by lia.
    rewrite Z_mod_plus_full. apply Z.mod_0_l. lia. }
  assert (E2 : (0 - 1) mod len nh = len nh - 1).
  { replace (0 - 1) with (len nh - 1 + (-1) * len nh) by lia.
    rewrite Z_mod_plus_full. apply Z.mod_small. lia. }
  rewrite E1, E2. split.
  - unfold first in Hf. cbn [items] in Hf. exact Hf.
  - unfold last in Hl. cbn [items truthy] in Hl. exact Hl.
Qed.

End CursorLaws.

(** ** Key combinations: round trip and the plus sign *)
Module KeyComboLaws.
Import Str StrSpec InputHandler KeyComboSpec.

Lemma lower_app (a b : string) : lower (a ++ b) = lower a ++ lower b.
Proof. induction a as [|c r IH]; simpl; [reflexivity|]. rewrite IH. reflexivity. Qed.

(** A separator at the end of the string adds one empty piece. *)
Lemma split_sep_end (sep : ascii) (s : string) :
  split sep (s ++ String sep "") = (split sep s ++ [""])%list.
Proof.
  induction s as [|c r IH]; simpl.
  - rewrite Ascii.eqb_refl. reflexivity.
  - destruct (Ascii.eqb c sep).
    + rewrite IH. reflexivity.
    + rewrite IH. pose proof (split_not_nil sep r) as Hn.
      destruct (split sep r); [congruence|reflexivity].
Qed.

(** X4. The parser never raises, and joining what it returns with plus
    signs, modifiers first and base key last, gives the lower-cased
    input back. *)
Theorem parse_key_combo_join (s : string) :
  exists (ms : list string) (k : string),
    parse_key_combo s = Ok (ms, k) /\
    join "+" (ms ++ [k])%list = lower s.
Proof.
  destruct (exists_last (split_not_nil "+" (lower s))) as (ms & k & Hp).
  exists ms, k. split; [apply parse_key_combo_parts; exact Hp|].
  rewrite <- Hp. apply join_split.
Qed.

(** X5. No modifier and no base key that the parser returns holds a plus
    sign, so the plus key is never a base key; and a combo text that
    ends with a plus sign has the empty string as its base key, with all
    the tokens before it as modifiers. *)
Theorem parse_key_combo_plus (s : string) :
  exists (ms : list string) (k : string),
    parse_key_combo s = Ok (ms, k) /\
    Forall (fun m => free_of "+" m = true) ms /\
    free_of "+" k = true /\
    parse_key_combo (s ++ "+") = Ok ((ms ++ [k])%list, "").
Proof.
  destruct (exists_last (split_not_nil "+" (lower s))) as (ms & k & Hp).
  exists ms, k.
  pose proof (split_free "+" (lower s)) as Hf. rewrite Hp in Hf.
  apply Forall_app in Hf as [Hms Hk]. inversion Hk; subst.
  split; [apply parse_key_combo_parts; exact Hp|].
  split; [exact Hms|]. split; [assumption|].
  apply parse_key_combo_parts.
  rewrite lower_app. change (lower "+") with "+".
  rewrite split_sep_end, Hp. reflexivity.
Qed.

End KeyComboLaws.

(** ** The dispatch table: unbinding, clearing, the mode, the file *)
Module DispatchLaws.
Import Str StrSpec InputHandler InputHandlerSpec.
Local Open Scope list_scope.

Section Dispatch.
Context {Callback World : Type}.
Variable call : Callback -> t Callback * World
                -> option exn * (t Callback * World).

Implicit Types (s : sys Callback World) (cb : Callback).

Lemma hotkeys_unbind s key k :
  hotkeys (handler (unbind key s)) !! k =
    if decide (lower key = k) then None else hotkeys (handler s) !! k.
Proof.
  unfold unbind. destruct (hotkeys (handler s) !! lower key) eqn:Hk; simpl.
  - apply lookup_delete.
  - case_decide; [subst; exact Hk|reflexivity].
Qed.

(** X6. [unbind k] removes the binding of every case variant of [k] (the
    key is then not handled), keeps the binding of every other key, and
    when [k] has no binding it changes nothing and prints nothing. *)
Theorem unbind_removes s (k k' : string) :
  (lower k' = lower k ->
   handle_key call k' (unbind k s) = (Ok false, unbind k s)) /\
  (lower k' <> lower k ->
   hotkeys (handler (unbind k s)) !! lower k'
     = hotkeys (handler s) !! lower k') /\
  (hotkeys (handler s) !! lower k = None -> unbind k s = s).
Proof.
  split; [|split].
  - intros Hk. apply handle_key_unbound. rewrite hotkeys_unbind, Hk.
    destruct (decide (lower k = lower k)); [reflexivity|contradiction].
  - intros Hk. rewrite hotkeys_unbind.
    destruct (decide (lower k = lower k')); [congruence|reflexivity].
  - intros Hk. unfold unbind. rewrite Hk. reflexivity.
Qed.

(** X7. After [clear_bindings] no key is handled; the navigation mode and
    the rest of the program are as before. *)
Theorem clear_bindings_unbinds_all s (k : string) :
  handle_key call k (clear_bindings s) = (Ok false, clear_bindings s) /\
  get_navigation_mode (clear_bindings s) = get_navigation_mode s /\
  env (clear_bindings s) = env s.
Proof.
  split; [|split; reflexivity].
  apply handle_key_unbound. simpl. apply lookup_empty.
Qed.

(** X8. A new handler handles no key, whatever the hotkeys file holds, and
    loading a hotkeys file binds nothing: a key without a callback is
    still not handled after [load_hotkeys], even when the file names
    it. *)
Theorem hotkeys_file_binds_nothing
    (file : option (string * loaded (gmap string string))) (w : World)
    (filepath : string) (src : loaded (gmap string string)) s (k : string) :
  handle_key call k (init file w) = (Ok false, init file w) /\
  (hotkeys (handler s) !! lower k = None ->
   handle_key call k (load_hotkeys filepath src s)
     = (Ok false, load_hotkeys filepath src s)).
Proof.
  split.
  - apply handle_key_unbound. unfold init.
    destruct file as [[path [| |doc]]|]; simpl;
      try destruct (String.eqb path ""); simpl; apply lookup_empty.
  - intros Hk. apply handle_key_unbound.
    destruct src; simpl; exact Hk.
Qed.

Lemma mode_exec (c : command Callback) s :
  get_navigation_mode s ∈ ["menu"; "list"; "form"; "match"] ->
  get_navigation_mode (exec c s) ∈ ["menu"; "list"; "form"; "match"].
Proof.
  intros H. destruct c as [key action cb|key|mode|]; simpl; try exact H.
  - unfold unbind. destruct (hotkeys (handler s) !! lower key); exact H.
  - unfold set_navigation_mode. case_bool_decide; [assumption|exact H].
Qed.

Lemma mode_init (file : option (string * loaded (gmap string string))) (w : World) :
  get_navigation_mode (init (Callback := Callback) file w) = "menu".
Proof.
  unfold init. destruct file as [[path [| |doc]]|]; simpl;
    try destruct (String.eqb path ""); reflexivity.
Qed.

(** X9. The navigation mode of a handler is always one of the four modes:
    it starts as "menu", and [set_navigation_mode] takes one of the four
    names (compared as they are, so "Menu" is refused) and otherwise
    leaves the mode as it was. *)
Theorem navigation_mode_valid
    (file : option (string * loaded (gmap string string))) (w : World)
    (cs : list (command Callback)) (mode : string) :
  get_navigation_mode (run cs (init file w))
    ∈ ["menu"; "list"; "form"; "match"] /\
  get_navigation_mode (set_navigation_mode mode (run cs (init file w)))
    = if bool_decide (mode ∈ ["menu"; "list"; "form"; "match"])
      then mode else get_navigation_mode (run cs (init file w)).
Proof.
  split.
  - assert (H0 : get_navigation_mode (init (Callback := Callback) file w)
                 ∈ ["menu"; "list"; "form"; "match"])
      by (rewrite mode_init; set_solver).
    revert H0. generalize (init (Callback := Callback) file w).
    induction cs as [|c cs IH]; intros s0 H0; [exact H0|].
    apply (IH (exec c s0)). apply mode_exec, H0.
  - unfold set_navigation_mode. case_bool_decide; reflexivity.
Qed.

Lemma lower_keys_exec (c : command Callback) s :
  (forall k, is_Some (hotkeys (handler s) !! k) -> lower k = k) ->
  forall k, is_Some (hotkeys (handler (exec c s)) !! k) -> lower k = k.
Proof.
  intros H k. destruct c as [key action cb|key|mode|]; cbn [exec].
  - rewrite hotkeys_bind. case_decide; [intros _; subst; apply lower_idem|apply H].
  - rewrite hotkeys_unbind. case_decide; [intros [? ?]; discriminate|apply H].
  - unfold set_navigation_mode. case_bool_decide; apply H.
  - simpl. rewrite lookup_empty. intros [? ?]. discriminate.
Qed.

(** X10. Every key of the dispatch table is in lower case: after any run of
    [bind], [unbind], [set_navigation_mode] and [clear_bindings] on a new
    handler, a bound key is its own lower-cased form; and these calls
    call no callback and leave the rest of the program alone. *)
Theorem bound_keys_lower_case
    (file : option (string * loaded (gmap string string))) (w : World)
    (cs : list (command Callback)) (k : string) :
  (is_Some (hotkeys (handler (run cs (init file w))) !! k) -> lower k = k) /\
  calls (trace (run cs (init file w))) = [] /\
  env (run cs (init file w)) = w.
Proof.
  assert (H0 : (forall k, is_Some (hotkeys (handler (init (Callback := Callback) file w)) !! k)
                          -> lower k = k) /\
               calls (trace (init (Callback := Callback) file w)) = [] /\
               env (init (Callback := Callback) file w) = w).
  { unfold init. destruct file as [[path [| |doc]]|]; simpl;
      try destruct (String.eqb path ""); simpl;
      (split; [intros k0; rewrite lookup_empty; intros [? ?]; discriminate
              |split; reflexivity]). }
  revert H0. generalize (init (Callback := Callback) file w).
  induction cs as [|c cs IH]; intros s0 (Hk & Hc & He).
  - split; [apply Hk|]. split; assumption.
  - apply (IH (exec c s0)). split; [apply lower_keys_exec, Hk|].
    destruct c as [key action cb|key|mode|]; cbn [exec].
    + unfold bind. simpl. rewrite calls_app, Hc. split; [reflexivity|exact He].
    + unfold unbind. destruct (hotkeys (handler s0) !! lower key); simpl;
        rewrite ?calls_app, Hc; split; try reflexivity; exact He.
    + unfold set_navigation_mode. case_bool_decide; simpl;
        rewrite calls_app, Hc; split; try reflexivity; exact He.
    + simpl. rewrite calls_app, Hc. split; [reflexivity|exact He].
Qed.

End Dispatch.

Import Scenario.

Lemma unbind_removes_witness :
  handle_key call "R" (unbind "r" (bind "R" "Read" Count start))
    = (Ok false, unbind "r" (bind "R" "Read" Count start)) /\
  hotkeys (handler (unbind "x" (bind "R" "Read" Count start))) !! "r"
    = Some Count /\
  unbind "q" start = start.
Proof.
  split; [|split].
  - apply (proj1 (unbind_removes call (bind "R" "Read" Count start) "r" "R")).
    reflexivity.
  - exact (proj1 (proj2 (unbind_removes call (bind "R" "Read" Count start)
                           "x" "r")) ltac:(discriminate)).
  - apply (proj2 (proj2 (unbind_removes call start "q" "q"))). reflexivity.
Defined.

Lemma hotkeys_file_binds_nothing_witness :
  handle_key call "s"
    (load_hotkeys "hotkeys.json" (Parsed {[ "s" := "save" ]}) start)
  = (Ok false, load_hotkeys "hotkeys.json" (Parsed {[ "s" := "save" ]}) start).
Proof.
  apply (proj2 (hotkeys_file_binds_nothing call None 0%nat "hotkeys.json"
                  (Parsed {[ "s" := "save" ]}) start "s")).
  reflexivity.
Defined.

Lemma bound_keys_lower_case_witness :
  hotkeys (handler (run [Bind "Ctrl+S" "Save" Count] start)) !! "ctrl+s"
    = Some Count /\
  lower "ctrl+s" = "ctrl+s".
Proof.
  split; [reflexivity|].
  apply (proj1 (bound_keys_lower_case (Callback := callback) None 0%nat
                  [Bind "Ctrl+S" "Save" Count] "ctrl+s")).
  exists Count. reflexivity.
Defined.

End DispatchLaws.

(** ** The preset table: lookups, the active preset, files *)
Module PresetLaws.
Import Str StrSpec KeyboardMapper KeyboardMapperSave KeyboardMapperSpec.
Local Open Scope list_scope.

Implicit Types (s : state) (d m : dict) (p q name : string)
  (preset : option string).

Lemma get_action_table key preset s :
  get_action key preset s
  = table s (or_current preset s) ≫= (fun d => d !! lower key).
Proof.
  unfold get_action, table.
  destruct (mappings s !! or_current preset s); reflexivity.
Qed.

Lemma current_preset_map_key key action preset s :
  current_preset (map_key key action preset s) = current_preset s.
Proof.
  unfold map_key. destruct (mappings s !! or_current preset s); reflexivity.
Qed.

Lemma current_preset_unmap_key key preset s :
  current_preset (unmap_key key preset s) = current_preset s.
Proof.
  unfold unmap_key. destruct (mappings s !! or_current preset s) as [l|]; [|reflexivity].
  destruct (deref s l !! lower key); reflexivity.
Qed.

Lemma or_current_eq preset s s' :
  current_preset s' = current_preset s -> or_current preset s' = or_current preset s.
Proof. intros H. unfold or_current. rewrite H. reflexivity. Qed.

(** X11. After [map_key k a] on a preset (the one named, or the active one
    when none is named; it is made if it is not there), [get_action] on
    that preset finds [a] under every case variant of [k], and finds
    under every other key what it found before. *)
Theorem map_key_get_action s (k k' a : string) preset :
  reachable s ->
  (lower k' = lower k ->
   get_action k' preset (map_key k a preset s) = Some a) /\
  (lower k' <> lower k ->
   get_action k' preset (map_key k a preset s) = get_action k' preset s).
Proof.
  intros Hr. apply reachable_wf in Hr.
  rewrite !get_action_table.
  rewrite (or_current_eq preset s (map_key k a preset s))
    by apply current_preset_map_key.
  rewrite table_map_key by exact Hr.
  destruct (decide (or_current preset s = or_current preset s)); [|contradiction].
  simpl. split; intros Hk.
  - rewrite Hk. apply lookup_insert_eq.
  - rewrite lookup_insert_ne by congruence.
    destruct (table s (or_current preset s)); [reflexivity|apply lookup_empty].
Qed.

Lemma map_key_get_action_witness :
  get_action "ctrl+s" (Some "p1") (map_key "Ctrl+S" "save" (Some "p1") (init None))
    = Some "save" /\
  get_action "UP" None (map_key "Ctrl+S" "save" None (init None))
    = Some "navigate_up".
Proof.
  split.
  - apply (proj1 (map_key_get_action (init None) "Ctrl+S" "ctrl+s" "save"
                    (Some "p1") (reach_init None))).
    reflexivity.
  - rewrite (proj2 (map_key_get_action (init None) "Ctrl+S" "UP" "save"
                      None (reach_init None)) ltac:(discriminate)).
    vm_compute. reflexivity.
Defined.

(** X12. After [unmap_key k] on a preset, [get_action] on that preset finds
    nothing under any case variant of [k] and, under every other key,
    what it found before; when the preset has nothing under [k] the
    call changes nothing at all. *)
Theorem unmap_key_get_action s (k k' : string) preset :
  reachable s ->
  (lower k' = lower k ->
   get_action k' preset (unmap_key k preset s) = None) /\
  (lower k' <> lower k ->
   get_action k' preset (unmap_key k preset s) = get_action k' preset s) /\
  (get_action k preset s = None -> unmap_key k preset s = s).
Proof.
  intros Hr. apply reachable_wf in Hr.
  rewrite !get_action_table.
  rewrite (or_current_eq preset s (unmap_key k preset s))
    by apply current_preset_unmap_key.
  rewrite table_unmap_key by exact Hr.
  destruct (decide (or_current preset s = or_current preset s)); [|contradiction].
  split; [|split].
  - intros Hk. rewrite Hk.
    destruct (table s (or_current preset s)); simpl; [apply lookup_delete_eq|reflexivity].
  - intros Hk.
    destruct (table s (or_current preset s)); simpl; [|reflexivity].
    apply lookup_delete_ne. congruence.
  - unfold table, unmap_key.
    destruct (mappings s !! or_current preset s) as [l|]; simpl; [|reflexivity].
    intros ->. reflexivity.
Qed.

Lemma unmap_key_get_action_witness :
  get_action "Q" None (unmap_key "q" None (init None)) = None /\
  get_action "s" None (unmap_key "q" None (init None)) = Some "save" /\
  unmap_key "zz" (Some "match") (init None) = init None.
Proof.
  split; [|split].
  - apply (proj1 (unmap_key_get_action (init None) "q" "Q" None
                    (reach_init None))).
    reflexivity.
  - rewrite (proj1 (proj2 (unmap_key_get_action (init None) "q" "s" None
                             (reach_init None))) ltac:(discriminate)).
    vm_compute. reflexivity.
  - apply (proj2 (proj2 (unmap_key_get_action (init None) "zz" "zz"
                           (Some "match") (reach_init None)))).
    vm_compute. reflexivity.
Defined.

(** X13. [map_key] and [unmap_key] change the table of the preset they work
    on and of no other preset. *)
Theorem edits_touch_one_preset s (k a : string) preset q :
  reachable s -> q <> or_current preset s ->
  table (map_key k a preset s) q = table s q /\
  table (unmap_key k preset s) q = table s q.
Proof.
  intros Hr Hq. apply reachable_wf in Hr.
  rewrite table_map_key, table_unmap_key by exact Hr.
  destruct (decide (or_current preset s = q)); [congruence|].
  split; reflexivity.
Qed.

Lemma edits_touch_one_preset_witness :
  table (map_key "r" "reset" (Some "match") (init None)) "tactics"
    = Some tactics_table /\
  table (unmap_key "R" None (init None)) "inbox" = Some inbox_table.
Proof.
  split.
  - rewrite (proj1 (edits_touch_one_preset (init None) "r" "reset"
                      (Some "match") "tactics" (reach_init None)
                      ltac:(discriminate))).
    vm_compute. reflexivity.
  - rewrite (proj2 (edits_touch_one_preset (init None) "R" ""
                      None "inbox" (reach_init None)
                      ltac:(discriminate))).
    vm_compute. reflexivity.
Defined.

(** X14. [set_preset] of a name that is a preset returns [True], and lookups
    that name no preset then read that preset's table; of a name that is
    no preset it returns [False] and the active preset and all tables
    stay as they were. *)
Theorem set_preset_validated s name (key : string) :
  (is_Some (mappings s !! name) ->
   fst (set_preset name s) = true /\
   current_preset (snd (set_preset name s)) = name /\
   get_action key None (snd (set_preset name s))
     = table s name ≫= (fun d => d !! lower key)) /\
  (mappings s !! name = None ->
   fst (set_preset name s) = false /\
   current_preset (snd (set_preset name s)) = current_preset s /\
   mappings (snd (set_preset name s)) = mappings s /\
   heap (snd (set_preset name s)) = heap s).
Proof.
  unfold set_preset. split.
  - intros [l Hl]. rewrite Hl. simpl.
    split; [reflexivity|]. split; [reflexivity|].
    unfold get_action, table. simpl. rewrite Hl. reflexivity.
  - intros Hn. rewrite Hn. repeat split; reflexivity.
Qed.

Lemma set_preset_validated_witness :
  get_action "C" None (snd (set_preset "match" (init None)))
    = Some "read_commentary" /\
  fst (set_preset "Match" (init None)) = false /\
  current_preset (snd (set_preset "Match" (init None))) = "default".
Proof.
  split.
  - rewrite (proj2 (proj2 (proj1 (set_preset_validated (init None) "match" "C")
                             ltac:(eexists; vm_compute; reflexivity)))).
    vm_compute. reflexivity.
  - destruct (proj2 (set_preset_validated (init None) "Match" "")
                ltac:(vm_compute; reflexivity)) as (H1 & H2 & _).
    split; [exact H1|exact H2].
Defined.

(** *** Presets are never removed *)

Lemma mappings_assign_new name d s p :
  is_Some (mappings s !! p) -> is_Some (mappings (assign_new name d s) !! p).
Proof.
  intros H. unfold assign_new. simpl. rewrite lookup_insert.
  case_decide; [eauto|exact H].
Qed.

Lemma mappings_merge_preset s (pm : string * dict) p :
  is_Some (mappings s !! p) -> is_Some (mappings (merge_preset s pm) !! p).
Proof.
  intros H. destruct pm as [n m]. unfold merge_preset.
  destruct (mappings s !! n); [exact H|apply mappings_assign_new, H].
Qed.

Lemma mappings_foldl_merge (pms : list (string * dict)) s p :
  is_Some (mappings s !! p) ->
  is_Some (mappings (foldl merge_preset s pms) !! p).
Proof.
  revert s. induction pms as [|pm pms IH]; intros s H; [exact H|].
  simpl. apply IH, mappings_merge_preset, H.
Qed.

Lemma mappings_load_config filepath src s p :
  is_Some (mappings s !! p) ->
  is_Some (mappings (load_config filepath src s) !! p).
Proof.
  intros H. destruct src; simpl; try exact H. apply mappings_foldl_merge, H.
Qed.

Lemma current_preset_foldl_merge (pms : list (string * dict)) s :
  current_preset (foldl merge_preset s pms) = current_preset s.
Proof.
  revert s. induction pms as [|[n m] pms IH]; intros s; [reflexivity|].
  simpl. rewrite IH. unfold merge_preset. destruct (mappings s !! n); reflexivity.
Qed.

Lemma current_preset_load_config filepath src s :
  current_preset (load_config filepath src s) = current_preset s.
Proof. destruct src; simpl; try reflexivity. apply current_preset_foldl_merge. Qed.

Lemma mappings_exec c s p :
  is_Some (mappings s !! p) -> is_Some (mappings (exec c s) !! p).
Proof.
  intros H. destruct c as [f src|n|k a pr|k pr|n b]; simpl.
  - apply mappings_load_config, H.
  - unfold set_preset. destruct (mappings s !! n); exact H.
  - unfold map_key. destruct (mappings s !! or_current pr s); simpl; [exact H|].
    rewrite lookup_insert. case_decide; [eauto|exact H].
  - unfold unmap_key. destruct (mappings s !! or_current pr s) as [l|]; [|exact H].
    destruct (deref s l !! lower k); exact H.
  - unfold create_preset.
    match goal with
    | |- is_Some (mappings (match ?x with _ => _ end) !! _) =>
        destruct x as [[b' l]|]
    end; simpl; rewrite lookup_insert; case_decide; eauto.
Qed.

Lemma current_exists_exec c s :
  is_Some (mappings s !! current_preset s) ->
  is_Some (mappings (exec c s) !! current_preset (exec c s)).
Proof.
  intros H. destruct c as [f src|n|k a pr|k pr|n b].
  - simpl. rewrite current_preset_load_config. apply mappings_load_config, H.
  - simpl. unfold set_preset. destruct (mappings s !! n) eqn:Hn; simpl; [|exact H].
    rewrite Hn. eauto.
  - cbn [exec]. rewrite current_preset_map_key.
    apply (mappings_exec (MapKey k a pr)), H.
  - cbn [exec]. rewrite current_preset_unmap_key.
    apply (mappings_exec (UnmapKey k pr)), H.
  - replace (current_preset (exec (CreatePreset n b) s)) with (current_preset s).
    + apply (mappings_exec (CreatePreset n b)), H.
    + simpl. unfold create_preset.
      match goal with
      | |- _ = current_preset (match ?x with _ => _ end) =>
          destruct x as [[b' l]|]
      end; reflexivity.
Qed.

Lemma init_defaults file p :
  p ∈ ["default"; "screen_reader"; "match"; "tactics"; "inbox"] ->
  is_Some (mappings (init file) !! p) /\ current_preset (init file) = "default".
Proof.
  intros Hp. unfold init.
  assert (H0 : forall cf, is_Some (mappings (_init_default_mappings
                             (State ∅ cf "default" ∅ [])) !! p)).
  { intros cf. repeat (apply elem_of_cons in Hp as [->|Hp]);
      [eexists; vm_compute; reflexivity ..|]. inversion Hp. }
  destruct file as [[path src]|]; cbv zeta; [|split; [apply H0|reflexivity]].
  destruct (String.eqb path ""); [split; [apply H0|reflexivity]|].
  split; [apply mappings_load_config, H0|].
  rewrite current_preset_load_config. reflexivity.
Qed.

Lemma is_Some_table s p : is_Some (table s p) <-> is_Some (mappings s !! p).
Proof. unfold table. rewrite fmap_is_Some. reflexivity. Qed.

(** X15. In every state of a mapper the five built-in presets are there and
    the active preset is a preset; no call removes a preset. *)
Theorem presets_never_removed s :
  reachable s ->
  Forall (fun p => is_Some (table s p))
    ["default"; "screen_reader"; "match"; "tactics"; "inbox"] /\
  is_Some (table s (current_preset s)) /\
  forall c p, is_Some (table s p) -> is_Some (table (exec c s) p).
Proof.
  intros Hr.
  assert (H : (forall p, p ∈ ["default"; "screen_reader"; "match"; "tactics"; "inbox"]
                         -> is_Some (mappings s !! p)) /\
              is_Some (mappings s !! current_preset s)).
  { induction Hr as [file|c s Hr [IH1 IH2]].
    - split; [intros p Hp; apply (init_defaults file p Hp)|].
      destruct (init_defaults file "default" ltac:(set_solver)) as [H1 H2].
      rewrite H2. exact H1.
    - split; [intros p Hp; apply mappings_exec, IH1, Hp|].
      apply current_exists_exec, IH2. }
  destruct H as [H1 H2]. split; [|split].
  - apply Forall_forall. intros p Hp. apply is_Some_table, H1, Hp.
  - apply is_Some_table, H2.
  - intros c p. rewrite !is_Some_table. apply mappings_exec.
Qed.

Lemma presets_never_removed_witness :
  Forall (fun p => is_Some (table (exec (CreatePreset "match" None)
                                     (exec (UnmapKey "c" (Some "match"))
                                        (init None))) p))
    ["default"; "screen_reader"; "match"; "tactics"; "inbox"].
Proof.
  exact (proj1 (presets_never_removed
                  (exec (CreatePreset "match" None)
                     (exec (UnmapKey "c" (Some "match")) (init None)))
                  (reach_exec _ _ (reach_exec _ _ (reach_init None))))).
Defined.

(** X16. [load_config] stores the keys of the document as they are written,
    and [get_action] looks up the lower-cased key: after loading, a
    lookup in a preset of the document finds the document's action under
    the lower-cased key if there is one, and else what it found before.
    So an entry that the document holds under a key with a capital
    letter is never found. *)
Theorem load_config_keys_verbatim s (filepath : string)
    (doc : gmap string dict) p m (key : string) :
  reachable s -> p <> "" -> doc !! p = Some m ->
  get_action key (Some p) (load_config filepath (Parsed doc) s)
  = match m !! lower key with
    | Some a => Some a
    | None => get_action key (Some p) s
    end.
Proof.
  intros Hr Hp Hd. apply reachable_wf in Hr.
  rewrite !get_action_table, !or_current_some by exact Hp.
  rewrite table_load_config_parsed, Hd by exact Hr. simpl.
  rewrite lookup_union.
  destruct (m !! lower key) as [a|] eqn:Hm.
  - destruct (default ∅ (table s p) !! lower key); reflexivity.
  - destruct (table s p) as [d|]; simpl.
    + destruct (d !! lower key); reflexivity.
    + rewrite lookup_empty. reflexivity.
Qed.

Lemma load_config_keys_verbatim_witness :
  get_action "Ctrl+Q" (Some "default")
    (load_config "keys.json"
       (Parsed {[ "default" := {[ "Ctrl+Q" := "quit" ]} ]}) (init None))
  = None.
Proof.
  assert (Hd : ({[ "default" := {[ "Ctrl+Q" := "quit" ]} ]}
                  : gmap string dict) !! "default"
               = Some ({[ "Ctrl+Q" := "quit" ]} : dict)) by reflexivity.
  rewrite (load_config_keys_verbatim (init None) "keys.json"
             {[ "default" := {[ "Ctrl+Q" := "quit" ]} ]} "default"
             {[ "Ctrl+Q" := "quit" ]} "Ctrl+Q" (reach_init None)
             ltac:(discriminate) Hd).
  vm_compute. reflexivity.
Defined.

(** *** Saving and loading *)

Lemma document_lookup s p : document s !! p = table s p.
Proof. unfold document, table. apply lookup_fmap. Qed.

(** The tables that [_init_default_mappings] builds do not depend on
    the path kept in [config_file]. *)
Lemma defaults_any_path (cf : option string) :
  mappings (_init_default_mappings (State ∅ cf "default" ∅ []))
    = mappings (init None) /\
  heap (_init_default_mappings (State ∅ cf "default" ∅ []))
    = heap (init None).
Proof. split; reflexivity. Qed.

Lemma table_defaults_any_path (cf : option string) p :
  table (_init_default_mappings (State ∅ cf "default" ∅ [])) p
  = table (init None) p.
Proof.
  destruct (defaults_any_path cf) as [Hm Hh].
  unfold table, deref. rewrite Hm, Hh. reflexivity.
Qed.

(** X17. Saving and loading back.  A [save_config] that succeeds writes the
    table of every preset, and [load_config] of that document into the
    same mapper leaves every table as it is; a [save_config] that fails
    reports the error and changes no table either. *)
Theorem save_then_load_same_mapper s (filepath filepath' : string)
    (e : exn) p :
  reachable s ->
  fst (save_config filepath None s) = Ok (Some (document s)) /\
  document s !! p = table s p /\
  table (load_config filepath' (Parsed (document s))
           (snd (save_config filepath None s))) p = table s p /\
  table (snd (save_config filepath (Some e) s)) p = table s p.
Proof.
  intros Hr. apply reachable_wf in Hr.
  split; [reflexivity|]. split; [apply document_lookup|]. split.
  - unfold save_config. cbn [snd].
    rewrite table_load_config_parsed by (apply wf_print, Hr).
    rewrite document_lookup, table_print.
    destruct (table s p) as [m|]; [|reflexivity].
    simpl. rewrite (idemp_L (∪) m). reflexivity.
  - unfold save_config. destruct (is_Exception e); reflexivity.
Qed.

Lemma save_then_load_same_mapper_witness :
  table (load_config "keys.json"
           (Parsed (document (exec (UnmapKey "q" None) (init None))))
           (snd (save_config "keys.json" None
                   (exec (UnmapKey "q" None) (init None))))) "default"
  = Some (delete "q" default_table).
Proof.
  destruct (save_then_load_same_mapper (exec (UnmapKey "q" None) (init None))
              "keys.json" "keys.json" IndexError "default"
              (reach_exec _ _ (reach_init None))) as (_ & _ & H & _).
  rewrite H. vm_compute. reflexivity.
Defined.

(** X18. A saved document loaded by a new mapper is merged over the built-in
    tables: each saved preset gets its saved pairs on top of the
    built-in pairs of that name, so a built-in key that was unmapped
    before saving is mapped again in the new mapper. *)
Theorem saved_document_in_new_mapper s (filepath : string) p :
  reachable s -> filepath <> "" ->
  table (init (Some (filepath, Parsed (document s)))) p
  = match table s p with
    | Some m => Some (m ∪ default ∅ (table (init None) p))
    | None => table (init None) p
    end.
Proof.
  intros Hr Hf. unfold init. cbv zeta.
  destruct (String.eqb_spec filepath ""); [contradiction|].
  rewrite table_load_config_parsed
    by (apply wf_init_default_mappings, wf_no_preset).
  rewrite document_lookup. cbn [fmap option_fmap option_map fst].
  rewrite table_defaults_any_path. reflexivity.
Qed.

Lemma saved_document_in_new_mapper_witness :
  get_action "q" None (exec (UnmapKey "q" None) (init None)) = None /\
  get_action "q" None
    (init (Some ("keys.json",
                 Parsed (document (exec (UnmapKey "q" None) (init None))))))
  = Some "quit".
Proof.
  split; [vm_compute; reflexivity|].
  rewrite get_action_table.
  rewrite (saved_document_in_new_mapper
             (exec (UnmapKey "q" None) (init None)) "keys.json"
             _ (reach_exec _ _ (reach_init None)) ltac:(discriminate)).
  vm_compute. reflexivity.
Defined.

End PresetLaws.

(** ** The inbox screen on top of the cursor and the handler *)
Module InboxScreenSpec.
Import InboxScreen.
Local Open Scope list_scope.



















End InboxScreenSpec.
